(** * Kohli AI chat front end: a model of [src/index.tsx]

    The component [App] keeps three [useState] cells ([messages],
    [input], [isLoading]) and one ref ([chat]).  Its only logic is the
    asynchronous submit handler [handleSendMessage].  The handler is
    embedded here the way an async function is compiled: a synchronous
    segment runs up to the next [await], leaves a suspended [Task], and
    is resumed when the backend settles that await.

    Strings are JavaScript strings whose code units lie in
    U+0000..U+00FF; one [ascii] is one code unit.  Messages are
    JavaScript objects, so the transcript is a list of references into
    an object store: line 96 writes through such a reference.

    The state is observed between events: the updates a segment queues
    are applied, in program order, before the next event is handled, as
    React renders before it dispatches another event or resumes another
    continuation. *)

From Stdlib Require Import Ascii String NArith.
From stdpp Require Import base list strings.

Local Open Scope string_scope.
Local Open Scope list_scope.

(** ** JavaScript string primitives used by the handler *)

Module Js.

Definition codeUnit (c : ascii) : N := N_of_ascii c.

(** White space and line terminators of ECMAScript (the ones below
    U+0100): TAB, LF, VT, FF, CR, SP and NBSP. *)
Definition isWhiteSpace (c : ascii) : bool :=
  bool_decide (codeUnit c ∈ [9; 10; 11; 12; 13; 32; 160]%N).

Fixpoint trimStart (s : string) : string :=
  match s with
  | EmptyString => EmptyString
  | String c s' => if isWhiteSpace c then trimStart s' else s
  end.

Definition trimEnd (s : string) : string :=
  String.rev (trimStart (String.rev s)).

(** [String.prototype.trim] *)
Definition trim (s : string) : string := trimEnd (trimStart s).

(** Simple lower-case mapping of one code unit: A-Z and the Latin-1
    capitals U+00C0..U+00DE (U+00D7, the multiplication sign, has no
    case). *)
Definition lowerUnit (c : ascii) : ascii :=
  let n := codeUnit c in
  if ((65 <=? n) && (n <=? 90)
      || (192 <=? n) && (n <=? 222) && negb (n =? 215))%N
  then ascii_of_N (n + 32) else c.

(** [String.prototype.toLowerCase] *)
Fixpoint toLowerCase (s : string) : string :=
  match s with
  | EmptyString => EmptyString
  | String c s' => String (lowerUnit c) (toLowerCase s')
  end.

(** [s.startsWith(searchString)] *)
Fixpoint startsWith (s searchString : string) : bool :=
  match searchString, s with
  | EmptyString, _ => true
  | String _ _, EmptyString => false
  | String d p', String c s' =>
      if bool_decide (c = d) then startsWith s' p' else false
  end.

(** [s.substring(start)]: the code units from index [start] on. *)
Fixpoint substring (start : nat) (s : string) : string :=
  match start, s with
  | O, _ => s
  | S _, EmptyString => EmptyString
  | S n, String _ s' => substring n s'
  end.

(** Truthiness of a string: only the empty string is falsy. *)
Definition truthy (s : string) : bool :=
  match s with EmptyString => false | String _ _ => true end.

(** Some code unit of [s] is not white space. *)
Fixpoint hasInk (s : string) : bool :=
  match s with
  | EmptyString => false
  | String c s' => negb (isWhiteSpace c) || hasInk s'
  end.

End Js.

(** ** Data model *)

Inductive Sender := user | ai.

(** [interface Message] (lines 9-13). *)
Record Message := mkMessage {
  text : string;
  sender : Sender;
  imageUrl : option string
}.

(** A thrown JavaScript value. *)
Record Error := mkError { message : string }.

(** The session handle returned by [ai.chats.create] (lines 31-36). *)
Record Chat := mkChat {
  chatModel : string;
  systemInstruction : string
}.

(** Argument of [ai.models.generateImages] (lines 69-73). *)
Record GenerateImagesParameters := mkGenerateImages {
  model : string;
  prompt : string;
  numberOfImages : nat;
  outputMimeType : string
}.

(** What line 75 reads from the response:
    [response.generatedImages[0].image.imageBytes]. *)
Record Image := mkImage { imageBytes : string }.
Record GeneratedImage := mkGeneratedImage { image : Image }.
Record GenerateImagesResponse := mkResponse {
  generatedImages : list GeneratedImage
}.

(** One element of the stream returned by [sendMessageStream]. *)
Record Chunk := mkChunk { chunkText : string }.

(** The two functional updaters passed to [setMessages]. *)
Inductive Updater :=
| Append (m : Message)          (* prev => [...prev, m] *)
| SetLastText (t : string).     (* lines 94-98 *)

(** A call to the backend. *)
Inductive Request :=
| GenerateImages (params : GenerateImagesParameters)
| SendMessageStream (session : Chat) (msg : string).

(** What a segment of the handler does to the outside, in program order. *)
Inductive Effect :=
| SetMessages (u : Updater)
| SetInput (value : string)
| SetIsLoading (b : bool)
| Call (r : Request)
| ConsoleError (label : string) (e : Error).

(** The continuation of a handler suspended at an [await]. *)
Inductive Task :=
| AwaitGenerateImages (prompt : string)      (* line 69 *)
| AwaitSendMessageStream                     (* line 87 *)
| AwaitNextChunk (fullResponse : string).    (* line 92 *)

(** How the backend settles an await. *)
Inductive Delivery :=
| ImagesFulfilled (response : GenerateImagesResponse)
| StreamFulfilled
| NextChunk (chunk : Chunk)
| StreamDone
| Rejected (e : Error).

(** How a segment of the [try] block ends. *)
Inductive Completion :=
| Normal
| Throw (e : Error)
| Await (t : Task).

(** How a segment of the whole handler ends. *)
Inductive Outcome :=
| Returned
| Suspended (t : Task).

(** ** Constants of the source *)

Definition greeting : string :=
  "Hello! I am Kohli AI, your smart and friendly assistant for everything related to industrial spindle technology. How can I assist you today?".

Definition chatConfig : Chat :=
  {| chatModel := "gemini-2.5-flash";
     systemInstruction := "You are Kohli AI, a helpful assistant specializing in industrial spindle technology. You are smart, friendly, and professional. Never mention you are an AI model. Only answer questions related to industrial machinery, spindles, manufacturing, and related technologies. If asked about something else, politely decline and steer the conversation back to your area of expertise." |}.

Definition imageCommand : string := "generate image of ".
Definition imageCommandAlt : string := "generate an image of ".

Definition dquote : string := String "034"%char EmptyString.

Definition errorMessage : Message :=
  {| text := "Sorry, I encountered an error. Please try again.";
     sender := ai; imageUrl := None |}.

(** ** The handler, lines 46-108 *)

(** Lines 57-66: the value of [prompt] when line 68 tests it. *)
Definition extractPrompt (currentInput : string) : string :=
  let lowercasedInput := Js.toLowerCase currentInput in
  if Js.startsWith lowercasedInput imageCommand
  then Js.substring (String.length imageCommand) currentInput
  else if Js.startsWith lowercasedInput imageCommandAlt
  then Js.substring (String.length imageCommandAlt) currentInput
  else EmptyString.

(** Line 68: the test that sends a submission down the image path. *)
Definition isImageCommand (currentInput : string) : bool :=
  Js.truthy (extractPrompt currentInput).

(** Lines 69-73. *)
Definition imageRequest (prompt : string) : GenerateImagesParameters :=
  {| model := "imagen-3.0-generate-002";
     prompt := "A high-quality, detailed image of " +:+ prompt
               +:+ " in an industrial setting.";
     numberOfImages := 1;
     outputMimeType := "image/png" |}.

(** Lines 76-81. *)
Definition imageMessage (prompt base64ImageBytes : string) : Message :=
  let imageUrl := "data:image/png;base64," +:+ base64ImageBytes in
  {| text := "Here is the image of " +:+ dquote +:+ prompt +:+ dquote
             +:+ " you requested.";
     sender := ai;
     imageUrl := Some imageUrl |}.

(** Lines 57-100 up to the first [await]. *)
Definition tryStart (currentInput : string) (chatCurrent : option Chat)
  : list Effect * Completion :=
  let prompt := extractPrompt currentInput in
  if Js.truthy prompt then
    ([Call (GenerateImages (imageRequest prompt))],
     Await (AwaitGenerateImages prompt))
  else
    match chatCurrent with
    | None => ([], Throw (mkError "Chat not initialized."))
    | Some session =>
        ([Call (SendMessageStream session currentInput)],
         Await AwaitSendMessageStream)
    end.

(** The [try] block from an [await] to the next one.  [None]: the
    delivery is not one the awaited promise can produce. *)
Definition tryResume (t : Task) (d : Delivery)
  : option (list Effect * Completion) :=
  match t, d with
  | _, Rejected e => Some ([], Throw e)
  | AwaitGenerateImages prompt, ImagesFulfilled response =>
      match generatedImages response with
      | [] =>
          (* [generatedImages[0]] is undefined, [.image] throws *)
          Some ([], Throw (mkError "TypeError"))
      | first :: _ =>
          let base64ImageBytes := imageBytes (image first) in
          let aiMessage := imageMessage prompt base64ImageBytes in
          Some ([SetMessages (Append aiMessage)], Normal)
      end
  | AwaitSendMessageStream, StreamFulfilled =>
      let fullResponse := EmptyString in
      Some ([SetMessages (Append {| text := EmptyString; sender := ai;
                                    imageUrl := None |})],
            Await (AwaitNextChunk fullResponse))
  | AwaitNextChunk fullResponse, NextChunk chunk =>
      let fullResponse := fullResponse +:+ chunkText chunk in
      Some ([SetMessages (SetLastText fullResponse)],
            Await (AwaitNextChunk fullResponse))
  | AwaitNextChunk _, StreamDone => Some ([], Normal)
  | _, _ => None
  end.

(** Lines 101-107: [catch] and [finally] around a segment. *)
Definition catchFinally (r : list Effect * Completion)
  : list Effect * Outcome :=
  match r with
  | (effects, Await t) => (effects, Suspended t)
  | (effects, Normal) => (effects ++ [SetIsLoading false], Returned)
  | (effects, Throw error) =>
      (effects ++ [ConsoleError "AI Error:" error;
                   SetMessages (Append errorMessage);
                   SetIsLoading false],
       Returned)
  end.

(** Lines 46-108 up to the first [await]: [input], [isLoading] and
    [chat.current] are what the handler's closure sees.  The call
    [e.preventDefault()] of line 47 only keeps the browser from
    reloading the page. *)
Definition handleSendMessage (input : string) (isLoading : bool)
    (chatCurrent : option Chat) : list Effect * Outcome :=
  if negb (Js.truthy (Js.trim input)) || isLoading then ([], Returned)
  else
    let userMessage := {| text := input; sender := user; imageUrl := None |} in
    let currentInput := input in
    let '(effects, completion) := tryStart currentInput chatCurrent in
    catchFinally
      ([SetMessages (Append userMessage); SetInput EmptyString;
        SetIsLoading true] ++ effects,
       completion).

(** A suspended handler resumed by the backend. *)
Definition resume (t : Task) (d : Delivery) : option (list Effect * Outcome) :=
  catchFinally <$> tryResume t d.

(** ** The component and its event loop *)

(** State of the mounted component.  [store] holds the message objects
    created so far; [messages] is the array of the [useState] cell, an
    array of references into [store].  [pending] are the handlers
    suspended at an [await]; [requests] and [console] record the calls
    made so far. *)
Record App := mkApp {
  store : list Message;
  messages : list nat;
  input : string;
  isLoading : bool;
  chat : option Chat;
  pending : list Task;
  requests : list Request;
  console : list Error
}.

(** An array of references read through the store. *)
Definition render (st : list Message) (refs : list nat) : list Message :=
  omap (λ r, st !! r) refs.

(** The transcript as [messages.map] renders it (line 117). *)
Definition transcript (a : App) : list Message :=
  render (store a) (messages a).

(** Lines 16-27: the state of the first render. *)
Definition initial : App :=
  {| store := [ {| text := greeting; sender := ai; imageUrl := None |} ];
     messages := [0];
     input := EmptyString;
     isLoading := false;
     chat := None;
     pending := [];
     requests := [];
     console := [] |}.

Definition setCell (st : list Message) (refs : list nat) (a : App) : App :=
  {| store := st; messages := refs; input := input a;
     isLoading := isLoading a; chat := chat a; pending := pending a;
     requests := requests a; console := console a |}.

Definition setInput (value : string) (a : App) : App :=
  {| store := store a; messages := messages a; input := value;
     isLoading := isLoading a; chat := chat a; pending := pending a;
     requests := requests a; console := console a |}.

Definition setIsLoading (b : bool) (a : App) : App :=
  {| store := store a; messages := messages a; input := input a;
     isLoading := b; chat := chat a; pending := pending a;
     requests := requests a; console := console a |}.

Definition setChat (c : option Chat) (a : App) : App :=
  {| store := store a; messages := messages a; input := input a;
     isLoading := isLoading a; chat := c; pending := pending a;
     requests := requests a; console := console a |}.

Definition setPending (ts : list Task) (a : App) : App :=
  {| store := store a; messages := messages a; input := input a;
     isLoading := isLoading a; chat := chat a; pending := ts;
     requests := requests a; console := console a |}.

Definition addRequest (r : Request) (a : App) : App :=
  {| store := store a; messages := messages a; input := input a;
     isLoading := isLoading a; chat := chat a; pending := pending a;
     requests := requests a ++ [r]; console := console a |}.

Definition addConsole (e : Error) (a : App) : App :=
  {| store := store a; messages := messages a; input := input a;
     isLoading := isLoading a; chat := chat a; pending := pending a;
     requests := requests a; console := console a ++ [e] |}.

Definition setText (t : string) (m : Message) : Message :=
  {| text := t; sender := sender m; imageUrl := imageUrl m |}.

(** A [setMessages] updater run on the current array.  [Append]
    allocates the object literal and pushes its reference.
    [SetLastText] copies the array and writes [text] through its last
    reference; on an empty array [newMessages[-1]] is undefined and the
    write throws, which is [None] here (the index [0 - 1] is [0] on
    [nat], and an empty array has no entry [0] either). *)
Definition applyUpdater (u : Updater) (a : App) : option App :=
  match u with
  | Append m =>
      Some (setCell (store a ++ [m]) (messages a ++ [length (store a)]) a)
  | SetLastText t =>
      match messages a !! (length (messages a) - 1) with
      | None => None
      | Some r =>
          match store a !! r with
          | None => None
          | Some _ =>
              Some (setCell (alter (setText t) r (store a)) (messages a) a)
          end
      end
  end.

Definition applyEffect (e : Effect) (a : App) : option App :=
  match e with
  | SetMessages u => applyUpdater u a
  | SetInput value => Some (setInput value a)
  | SetIsLoading b => Some (setIsLoading b a)
  | Call r => Some (addRequest r a)
  | ConsoleError _ e => Some (addConsole e a)
  end.

Fixpoint applyEffects (es : list Effect) (a : App) : option App :=
  match es with
  | [] => Some a
  | e :: es' =>
      match applyEffect e a with
      | None => None
      | Some a' => applyEffects es' a'
      end
  end.

(** What can happen to the mounted component. *)
Inductive Event :=
| Mount                              (* the effect of lines 29-38 *)
| Change (value : string)            (* onChange, line 145 *)
| Submit                             (* onSubmit, line 140 *)
| Settle (i : nat) (d : Delivery).   (* the backend settles an await *)

(** [Uncaught]: an updater threw, outside every [try].  [Disabled]:
    the event cannot happen in this state. *)
Inductive Result :=
| Ok (a : App)
| Uncaught
| Disabled.

(** The list of suspended handlers after handler [i] ran a segment. *)
Definition reschedule (i : nat) (outcome : Outcome) (ts : list Task)
  : list Task :=
  match outcome with
  | Returned => delete i ts
  | Suspended t => <[i := t]> ts
  end.

Definition step (a : App) (ev : Event) : Result :=
  match ev with
  | Mount =>
      Ok (match chat a with
          | None => setChat (Some chatConfig) a
          | Some _ => a
          end)
  | Change value => Ok (setInput value a)
  | Submit =>
      let '(effects, outcome) :=
        handleSendMessage (input a) (isLoading a) (chat a) in
      match applyEffects effects a with
      | None => Uncaught
      | Some a' =>
          Ok (match outcome with
              | Returned => a'
              | Suspended t => setPending (pending a' ++ [t]) a'
              end)
      end
  | Settle i d =>
      match pending a !! i with
      | None => Disabled
      | Some t =>
          match resume t d with
          | None => Disabled
          | Some (effects, outcome) =>
              match applyEffects effects a with
              | None => Uncaught
              | Some a' =>
                  Ok (setPending (reschedule i outcome (pending a')) a')
              end
          end
      end
  end.

Fixpoint run (a : App) (evs : list Event) : Result :=
  match evs with
  | [] => Ok a
  | ev :: evs' =>
      match step a ev with
      | Ok a' => run a' evs'
      | r => r
      end
  end.

(** No two entries of the array are the same object, and every entry
    is an allocated object. *)
Definition wfCell (st : list Message) (refs : list nat) : Prop :=
  NoDup refs ∧ Forall (λ r, r < length st) refs.

Definition wf (a : App) : Prop := wfCell (store a) (messages a).

(** No submission is in flight. *)
Definition idle (a : App) : Prop :=
  isLoading a = false ∧ pending a = [].

(** Exactly the submission suspended as [t] is in flight. *)
Definition busy (t : Task) (a : App) : Prop :=
  isLoading a = true ∧ pending a = [t].

(** What holds of every state the component can reach. *)
Definition consistent (a : App) : Prop :=
  wf a ∧ messages a ≠ [] ∧ (idle a ∨ ∃ t, busy t a).

(** Everything of the state except the [messages] cell. *)
Definition scalars (a : App)
  : string * bool * option Chat * list Task * list Request * list Error :=
  (input a, isLoading a, chat a, pending a, requests a, console a).

(** What can be observed of a state: the rendered transcript in place
    of the references. *)
Record View := mkView {
  vTranscript : list Message;
  vInput : string;
  vIsLoading : bool;
  vChat : option Chat;
  vPending : list Task;
  vRequests : list Request;
  vConsole : list Error
}.

Definition view (a : App) : View :=
  {| vTranscript := transcript a; vInput := input a;
     vIsLoading := isLoading a; vChat := chat a; vPending := pending a;
     vRequests := requests a; vConsole := console a |}.

Definition fromUser (input : string) : Message :=
  {| text := input; sender := user; imageUrl := None |}.

(** The conditions of lines 62 and 64. *)
Definition matchesPrefix (currentInput : string) : bool :=
  let lowercasedInput := Js.toLowerCase currentInput in
  Js.startsWith lowercasedInput imageCommand
  || Js.startsWith lowercasedInput imageCommandAlt.

(** The backend delivers the fragments [fs], in this order, to the only
    suspended handler. *)
Definition deliverChunks (fs : list string) : list Event :=
  (λ f, Settle 0 (NextChunk (mkChunk f))) <$> fs.

(** What a run leaves to be seen. *)
Definition observe (r : Result) : option View :=
  match r with
  | Ok a => Some (view a)
  | Uncaught | Disabled => None
  end.

(** A sample session: mounted, the user typed a question. *)
Definition asked (question : string) : App :=
  setInput question (setChat (Some chatConfig) initial).

(** The sample session in the middle of a streamed answer. *)
Definition midStream : App :=
  {| store := [ {| text := greeting; sender := ai; imageUrl := None |};
                {| text := "hi"; sender := user; imageUrl := None |};
                {| text := "par"; sender := ai; imageUrl := None |} ];
     messages := [0; 1; 2];
     input := EmptyString;
     isLoading := true;
     chat := Some chatConfig;
     pending := [AwaitNextChunk "par"];
     requests := [SendMessageStream chatConfig "hi"];
     console := [] |}.

(** ** The rendered page, lines 110-157 *)

(** One [div] of the chat window (lines 118-130): what it shows of a
    message.  [picture] is the [src] and [alt] of the [img]. *)
Record MessageBlock := mkBlock {
  key : nat;
  className : string;
  paragraph : option string;
  picture : option (string * string);
  signature : bool
}.

(** The page: the chat window, the three dots, the text field and the
    send button. *)
Record Screen := mkScreen {
  blocks : list MessageBlock;
  loadingIndicator : bool;
  fieldValue : string;
  fieldDisabled : bool;
  sendDisabled : bool
}.

Definition senderName (s : Sender) : string :=
  match s with
  | user => "user"
  | ai => "ai"
  end.

(** Lines 118-130, the callback of [messages.map]. *)
Definition renderMessage (index : nat) (msg : Message) : MessageBlock :=
  {| key := index;
     className := "message " +:+ senderName (sender msg);
     paragraph := if Js.truthy (text msg) then Some (text msg) else None;
     picture :=
       match imageUrl msg with
       | Some url => if Js.truthy url then Some (url, text msg) else None
       | None => None
       end;
     signature :=
       match sender msg with
       | ai => true
       | user => false
       end |}.

(** Lines 110-157. *)
Definition screen (a : App) : Screen :=
  {| blocks := imap renderMessage (transcript a);
     loadingIndicator := isLoading a;
     fieldValue := input a;
     fieldDisabled := isLoading a;
     sendDisabled := isLoading a || negb (Js.truthy (Js.trim (input a))) |}.

(** ** The transitions of the component, as a relation *)

Definition greetingMessage : Message :=
  {| text := greeting; sender := ai; imageUrl := None |}.

(** The message a streaming handler fills (line 89, then line 96). *)
Definition placeholder (fullResponse : string) : Message :=
  {| text := fullResponse; sender := ai; imageUrl := None |}.

(** [Transition a ev v]: in state [a] the event [ev] can happen and
    leaves a state seen as [v].  One constructor per path through
    lines 29-38, 145 and 46-108. *)
Inductive Transition (a : App) : Event → View → Prop :=
| T_Mount :
    Transition a Mount
      {| vTranscript := transcript a; vInput := input a;
         vIsLoading := isLoading a;
         vChat := match chat a with
                  | None => Some chatConfig
                  | Some session => Some session
                  end;
         vPending := pending a; vRequests := requests a;
         vConsole := console a |}
| T_Change (value : string) :
    Transition a (Change value)
      {| vTranscript := transcript a; vInput := value;
         vIsLoading := isLoading a; vChat := chat a;
         vPending := pending a; vRequests := requests a;
         vConsole := console a |}
| T_Blocked :
    Js.truthy (Js.trim (input a)) = false ∨ isLoading a = true →
    Transition a Submit (view a)
| T_Image :
    idle a → isImageCommand (input a) = true →
    Transition a Submit
      {| vTranscript := transcript a ++ [fromUser (input a)];
         vInput := EmptyString; vIsLoading := true; vChat := chat a;
         vPending := [AwaitGenerateImages (extractPrompt (input a))];
         vRequests :=
           requests a
           ++ [GenerateImages (imageRequest (extractPrompt (input a)))];
         vConsole := console a |}
| T_Chat (session : Chat) :
    idle a → chat a = Some session →
    Js.truthy (Js.trim (input a)) = true →
    isImageCommand (input a) = false →
    Transition a Submit
      {| vTranscript := transcript a ++ [fromUser (input a)];
         vInput := EmptyString; vIsLoading := true; vChat := chat a;
         vPending := [AwaitSendMessageStream];
         vRequests := requests a ++ [SendMessageStream session (input a)];
         vConsole := console a |}
| T_Uninitialised :
    idle a → chat a = None →
    Js.truthy (Js.trim (input a)) = true →
    isImageCommand (input a) = false →
    Transition a Submit
      {| vTranscript := transcript a ++ [fromUser (input a); errorMessage];
         vInput := EmptyString; vIsLoading := false; vChat := chat a;
         vPending := []; vRequests := requests a;
         vConsole := console a ++ [mkError "Chat not initialized."] |}
| T_Throw (t : Task) (d : Delivery) (e : Error) :
    busy t a → tryResume t d = Some ([], Throw e) →
    Transition a (Settle 0 d)
      {| vTranscript := transcript a ++ [errorMessage];
         vInput := input a; vIsLoading := false; vChat := chat a;
         vPending := []; vRequests := requests a;
         vConsole := console a ++ [e] |}
| T_ImageOk (prompt : string) (first : GeneratedImage)
    (others : list GeneratedImage) :
    busy (AwaitGenerateImages prompt) a →
    Transition a (Settle 0 (ImagesFulfilled (mkResponse (first :: others))))
      {| vTranscript :=
           transcript a ++ [imageMessage prompt (imageBytes (image first))];
         vInput := input a; vIsLoading := false; vChat := chat a;
         vPending := []; vRequests := requests a;
         vConsole := console a |}
| T_Stream :
    busy AwaitSendMessageStream a →
    Transition a (Settle 0 StreamFulfilled)
      {| vTranscript := transcript a ++ [placeholder EmptyString];
         vInput := input a; vIsLoading := true; vChat := chat a;
         vPending := [AwaitNextChunk EmptyString];
         vRequests := requests a; vConsole := console a |}
| T_Chunk (fullResponse : string) (chunk : Chunk) (ms : list Message)
    (m : Message) :
    busy (AwaitNextChunk fullResponse) a → transcript a = ms ++ [m] →
    Transition a (Settle 0 (NextChunk chunk))
      {| vTranscript := ms ++ [setText (fullResponse +:+ chunkText chunk) m];
         vInput := input a; vIsLoading := true; vChat := chat a;
         vPending := [AwaitNextChunk (fullResponse +:+ chunkText chunk)];
         vRequests := requests a; vConsole := console a |}
| T_Done (fullResponse : string) :
    busy (AwaitNextChunk fullResponse) a →
    Transition a (Settle 0 StreamDone)
      {| vTranscript := transcript a;
         vInput := input a; vIsLoading := false; vChat := chat a;
         vPending := []; vRequests := requests a;
         vConsole := console a |}.

(** What the handler lets into the transcript: a user message is not
    blank and has no image; an image, if any, is a PNG data URI and
    comes with a text. *)
Definition admissible (m : Message) : bool :=
  match sender m, imageUrl m with
  | user, None => Js.truthy (Js.trim (text m))
  | user, Some _ => false
  | ai, None => true
  | ai, Some url =>
      Js.startsWith url "data:image/png;base64," && Js.truthy (text m)
  end.

(** The backend calls among the effects of a segment, in order. *)
Fixpoint callsOf (effects : list Effect) : list Request :=
  match effects with
  | [] => []
  | Call r :: effects' => r :: callsOf effects'
  | _ :: effects' => callsOf effects'
  end.

(** The draft after the effects of a segment. *)
Definition draftAfter (effects : list Effect) (draft : string) : string :=
  foldl (λ d e, match e with
                | SetInput value => value
                | _ => d
                end) draft effects.

Definition isUser (m : Message) : bool :=
  match sender m with
  | user => true
  | ai => false
  end.

(** The session a chat request is sent on. *)
Definition sessionOf (r : Request) : option Chat :=
  match r with
  | SendMessageStream session _ => Some session
  | GenerateImages _ => None
  end.

(** A streaming handler's [fullResponse] is the text on display in the
    last message, which is not the only one. *)
Definition streamingInto (v : View) : Prop :=
  ∀ fullResponse, vPending v = [AwaitNextChunk fullResponse] →
    ∃ ms, ms ≠ [] ∧ vTranscript v = ms ++ [placeholder fullResponse].

(** What is seen of every state reached from [initial]. *)
Definition soundView (v : View) : Prop :=
  (∃ rest, vTranscript v = greetingMessage :: rest)
  ∧ Forall (λ m, admissible m = true) (vTranscript v)
  ∧ streamingInto v
  ∧ (vChat v = None ∨ vChat v = Some chatConfig)
  ∧ Forall (λ r, ∀ session, sessionOf r = Some session → session = chatConfig)
      (vRequests v)
  ∧ (length (vRequests v)
     ≤ length (filter (λ m, isUser m = true) (vTranscript v)))%nat.

Definition sound (a : App) : Prop := consistent a ∧ soundView (view a).

(** [new] keeps the history [old]: it appends to it, or it only
    lengthens the text of its last message, an assistant's. *)
Definition keepsHistory (old new : list Message) : Prop :=
  (∃ suffix, new = old ++ suffix)
  ∨ (∃ ms m more,
       old = ms ++ [m] ∧ sender m = ai
       ∧ new = ms ++ [setText (text m +:+ more) m]).

(** The events the user or React causes, as against the backend's. *)
Definition userEvent (ev : Event) : bool :=
  match ev with
  | Settle _ _ => false
  | Mount | Change _ | Submit => true
  end.

(** * Properties *)

(** ** Strings *)

Section JsStrings.
Import Js.

Lemma append_String (c : ascii) (s t : string) :
  String c s +:+ t = String c (s +:+ t).
Proof. reflexivity. Qed.

Lemma append_empty_l (s : string) : EmptyString +:+ s = s.
Proof. reflexivity. Qed.

Lemma append_empty_r (s : string) : s +:+ EmptyString = s.
Proof.
  induction s as [|c s IH]; [done |]. by rewrite append_String, IH.
Qed.

Lemma append_assoc (s1 s2 s3 : string) :
  (s1 +:+ s2) +:+ s3 = s1 +:+ (s2 +:+ s3).
Proof.
  induction s1 as [|c s1 IH]; [done |]. by rewrite !append_String, IH.
Qed.

Lemma truthy_true (s : string) : truthy s = true ↔ s ≠ EmptyString.
Proof. destruct s; simpl; split; congruence. Qed.

Lemma truthy_false (s : string) : truthy s = false ↔ s = EmptyString.
Proof. destruct s; simpl; split; congruence. Qed.

Lemma truthy_trimStart (s : string) : truthy (trimStart s) = hasInk s.
Proof.
  induction s as [|c s IH]; simpl; [done |].
  destruct (isWhiteSpace c); simpl; done.
Qed.

Lemma hasInk_trimStart (s : string) : hasInk (trimStart s) = hasInk s.
Proof.
  induction s as [|c s IH]; simpl; [done |].
  destruct (isWhiteSpace c) eqn:Hc; simpl; [done |].
  by rewrite Hc.
Qed.

Lemma hasInk_rev_app (s acc : string) :
  hasInk (String.rev_app s acc) = hasInk s || hasInk acc.
Proof.
  revert acc. induction s as [|c s IH]; intros acc; simpl; [done |].
  rewrite IH. simpl. destruct (isWhiteSpace c), (hasInk s), (hasInk acc); done.
Qed.

Lemma truthy_rev_app (s acc : string) :
  truthy (String.rev_app s acc) = truthy s || truthy acc.
Proof.
  revert acc. induction s as [|c s IH]; intros acc; simpl; [done |].
  rewrite IH. simpl. by rewrite orb_true_r.
Qed.

(** The guard of line 48 looks for a code unit that is not white space. *)
Lemma truthy_trim (s : string) : truthy (trim s) = hasInk s.
Proof.
  unfold trim, trimEnd, String.rev.
  rewrite truthy_rev_app, orb_false_r, truthy_trimStart.
  rewrite hasInk_rev_app, orb_false_r. apply hasInk_trimStart.
Qed.

(** Blank inputs are the ones [trim] empties. *)
Lemma trim_empty (s : string) : trim s = EmptyString ↔ hasInk s = false.
Proof. by rewrite <- truthy_false, truthy_trim. Qed.

Lemma toLowerCase_app (s1 s2 : string) :
  toLowerCase (s1 +:+ s2) = toLowerCase s1 +:+ toLowerCase s2.
Proof.
  induction s1 as [|c s1 IH]; [done |].
  rewrite append_String. simpl. by rewrite IH.
Qed.

Lemma toLowerCase_length (s : string) :
  String.length (toLowerCase s) = String.length s.
Proof. induction s as [|c s IH]; simpl; [done | by rewrite IH]. Qed.

(** A lower-cased string splits where the original does. *)
Lemma toLowerCase_split (s q r : string) :
  toLowerCase s = q +:+ r →
  ∃ p x, s = p +:+ x ∧ toLowerCase p = q ∧ toLowerCase x = r.
Proof.
  revert s. induction q as [|d q IH]; intros s H.
  - by exists EmptyString, s.
  - rewrite append_String in H.
    destruct s as [|c s]; simpl in H; [discriminate |].
    injection H as Hc Hs.
    destruct (IH _ Hs) as (p & x & -> & Hp & Hx).
    exists (String c p), x. simpl. by rewrite Hc, Hp.
Qed.

Lemma startsWith_app (p r : string) : startsWith (p +:+ r) p = true.
Proof.
  induction p as [|d p IH]; [by destruct r |].
  rewrite append_String. simpl. by rewrite bool_decide_eq_true_2.
Qed.

Lemma startsWith_true (s p : string) :
  startsWith s p = true ↔ ∃ r, s = p +:+ r.
Proof.
  split; [| intros [r ->]; apply startsWith_app].
  revert s. induction p as [|d p IH]; intros s H.
  - by exists s.
  - destruct s as [|c s]; simpl in H; [discriminate |].
    case_bool_decide as Hc; [| discriminate].
    destruct (IH _ H) as [r ->]. exists r. by rewrite Hc.
Qed.

Lemma substring_truthy (n : nat) (s : string) :
  truthy (substring n s) = true ↔ n < String.length s.
Proof.
  revert s. induction n as [|n IH]; intros [|c s]; simpl;
    rewrite ?IH; split; (done || lia).
Qed.

Lemma substring_app (p x : string) : substring (String.length p) (p +:+ x) = x.
Proof.
  induction p as [|d p IH]; [by destruct x |].
  by rewrite append_String.
Qed.

End JsStrings.

(** ** Classification of the input, lines 57-68 *)

Section Classification.
Import Js.

Lemma commands_differ (r : string) :
  startsWith (imageCommandAlt +:+ r) imageCommand = false.
Proof. reflexivity. Qed.

Lemma extractPrompt_command (p x : string) :
  toLowerCase p = imageCommand → extractPrompt (p +:+ x) = x.
Proof.
  intros Hp. unfold extractPrompt.
  rewrite toLowerCase_app, Hp, startsWith_app.
  rewrite <- Hp, toLowerCase_length. apply substring_app.
Qed.

Lemma extractPrompt_commandAlt (p x : string) :
  toLowerCase p = imageCommandAlt → extractPrompt (p +:+ x) = x.
Proof.
  intros Hp. unfold extractPrompt.
  rewrite toLowerCase_app, Hp, commands_differ, startsWith_app.
  rewrite <- Hp, toLowerCase_length. apply substring_app.
Qed.

Lemma extractPrompt_prefix (p x : string) :
  toLowerCase p = imageCommand ∨ toLowerCase p = imageCommandAlt →
  extractPrompt (p +:+ x) = x.
Proof.
  intros [Hp | Hp];
    [by apply extractPrompt_command | by apply extractPrompt_commandAlt].
Qed.

Lemma extractPrompt_no_match (s : string) :
  matchesPrefix s = false → extractPrompt s = EmptyString.
Proof.
  unfold matchesPrefix, extractPrompt. intros H.
  apply orb_false_iff in H as [-> ->]. done.
Qed.

Lemma matchesPrefix_split (s : string) :
  matchesPrefix s = true ↔
  ∃ p x, s = p +:+ x ∧
         (toLowerCase p = imageCommand ∨ toLowerCase p = imageCommandAlt).
Proof.
  unfold matchesPrefix. rewrite orb_true_iff, !startsWith_true. split.
  - intros [[r H] | [r H]];
      destruct (toLowerCase_split _ _ _ H) as (p & x & -> & Hp & _);
      exists p, x; auto.
  - intros (p & x & -> & [Hp | Hp]); rewrite toLowerCase_app, Hp;
      [left | right]; by eexists.
Qed.

Lemma isImageCommand_split (s : string) :
  isImageCommand s = true ↔
  ∃ p x, s = p +:+ x ∧ x ≠ EmptyString ∧
         (toLowerCase p = imageCommand ∨ toLowerCase p = imageCommandAlt).
Proof.
  unfold isImageCommand. rewrite truthy_true. split.
  - intros Hx. destruct (matchesPrefix s) eqn:Hm.
    + apply matchesPrefix_split in Hm as (p & x & -> & Hp).
      exists p, x. by rewrite extractPrompt_prefix in Hx.
    + by rewrite extractPrompt_no_match in Hx.
  - intros (p & x & -> & Hx & Hp). by rewrite extractPrompt_prefix.
Qed.

Lemma command_excludes_alt (s : string) :
  startsWith s imageCommand = true → startsWith s imageCommandAlt = false.
Proof. intros H. apply startsWith_true in H as [r ->]. reflexivity. Qed.

(** A first code unit that is not a letter g rules both commands out. *)
Lemma matchesPrefix_head (c : ascii) (s : string) :
  lowerUnit c ≠ "g"%char → matchesPrefix (String c s) = false.
Proof.
  intros Hc. unfold matchesPrefix. simpl.
  by rewrite !bool_decide_eq_false_2.
Qed.

Lemma lowerUnit_whiteSpace (c : ascii) :
  isWhiteSpace c = true → lowerUnit c ≠ "g"%char.
Proof.
  destruct c as [[] [] [] [] [] [] [] []]; vm_compute; congruence.
Qed.

(** An image command is never blank: the guard of line 48 lets it pass. *)
Lemma isImageCommand_hasInk (s : string) :
  isImageCommand s = true → hasInk s = true.
Proof.
  intros H. destruct s as [|c s]; [done |]. simpl.
  destruct (isWhiteSpace c) eqn:Hc; [| done].
  apply lowerUnit_whiteSpace in Hc.
  unfold isImageCommand in H.
  by rewrite (extractPrompt_no_match _ (matchesPrefix_head c s Hc)) in H.
Qed.

End Classification.

(** ** The [messages] cell: references against values *)

Section Cell.

Lemma omap_ext_Forall {A B} (f g : A → option B) (l : list A) :
  Forall (λ x, f x = g x) l → omap f l = omap g l.
Proof.
  induction 1 as [|x l Hx _ IH]; [done |].
  unfold omap in *. simpl. rewrite Hx. destruct (g x); by rewrite IH.
Qed.

Lemma render_snoc (st : list Message) (refs : list nat) (r : nat) (m : Message) :
  st !! r = Some m → render st (refs ++ [r]) = render st refs ++ [m].
Proof. intros H. unfold render. rewrite omap_app. simpl. by rewrite H. Qed.

Lemma render_grow (st : list Message) (refs : list nat) (m : Message) :
  Forall (λ r, r < length st) refs →
  render (st ++ [m]) refs = render st refs.
Proof.
  intros H. apply omap_ext_Forall. eapply Forall_impl; [exact H |].
  intros r Hr. simpl. by apply lookup_app_l.
Qed.

(** Pushing a fresh object appends its value and nothing else. *)
Lemma render_push (st : list Message) (refs : list nat) (m : Message) :
  wfCell st refs →
  render (st ++ [m]) (refs ++ [length st]) = render st refs ++ [m].
Proof.
  intros [_ Hlt].
  rewrite (render_snoc _ _ _ m) by apply list_lookup_middle, eq_refl.
  by rewrite render_grow.
Qed.

Lemma wfCell_push (st : list Message) (refs : list nat) (m : Message) :
  wfCell st refs → wfCell (st ++ [m]) (refs ++ [length st]).
Proof.
  intros [Hnd Hlt]. split.
  - apply NoDup_app. split_and!; [done | | apply NoDup_singleton].
    intros r Hr Hr'. apply list_elem_of_singleton in Hr'.
    rewrite Forall_forall in Hlt. specialize (Hlt r Hr). lia.
  - rewrite length_app. simpl. apply Forall_app. split.
    + eapply Forall_impl; [exact Hlt |]. intros r Hr. simpl in *. lia.
    + apply Forall_singleton. lia.
Qed.

(** Writing through one reference leaves the other entries alone. *)
Lemma render_alter_ne (st : list Message) (refs : list nat) (r : nat)
    (f : Message → Message) :
  r ∉ refs → render (alter f r st) refs = render st refs.
Proof.
  intros Hr. apply omap_ext_Forall, Forall_forall. intros r' Hr'.
  apply list_lookup_alter_ne. intros ->. done.
Qed.

Lemma wfCell_alter (st : list Message) (refs : list nat) (r : nat)
    (f : Message → Message) :
  wfCell st refs → wfCell (alter f r st) refs.
Proof. intros [Hnd Hlt]. split; [done |]. by rewrite length_alter. Qed.

Lemma render_length (st : list Message) (refs : list nat) :
  wfCell st refs → length (render st refs) = length refs.
Proof.
  intros [_ Hlt]. induction Hlt as [|r refs Hr _ IH]; [done |].
  unfold render, omap in *. simpl.
  destruct (lookup_lt_is_Some_2 st r Hr) as [m ->]. simpl. by rewrite IH.
Qed.

Lemma transcript_nil (a : App) :
  wf a → transcript a = [] ↔ messages a = [].
Proof.
  intros Hwf. rewrite <- !length_zero_iff_nil.
  unfold transcript. by rewrite render_length.
Qed.

Lemma applyUpdater_Append (a : App) (m : Message) :
  wf a →
  ∃ a', applyUpdater (Append m) a = Some a' ∧ wf a' ∧
        transcript a' = transcript a ++ [m] ∧ scalars a' = scalars a.
Proof.
  intros Hwf. eexists. split; [reflexivity |]. split_and!.
  - by apply wfCell_push.
  - by apply render_push.
  - done.
Qed.

(** The write of line 96 through the last reference: on values, only
    the last message changes, and only its text. *)
Lemma applyUpdater_SetLastText (a : App) (t : string)
    (ms : list Message) (m : Message) :
  wf a → transcript a = ms ++ [m] →
  ∃ a', applyUpdater (SetLastText t) a = Some a' ∧ wf a' ∧
        transcript a' = ms ++ [setText t m] ∧ scalars a' = scalars a.
Proof.
  intros Hwf Htr.
  destruct (messages a) as [|r0 refs0] eqn:Hrefs using rev_ind.
  { apply (transcript_nil a Hwf) in Hrefs. rewrite Hrefs in Htr.
    by destruct ms. }
  clear IHrefs0. rename refs0 into refs, r0 into r.
  destruct Hwf as [Hnd Hlt]. rewrite Hrefs in Hnd, Hlt.
  rewrite Forall_app, Forall_singleton in Hlt. destruct Hlt as [Hlt Hr].
  destruct (lookup_lt_is_Some_2 _ _ Hr) as [m' Hm'].
  unfold transcript in Htr. rewrite Hrefs, (render_snoc _ _ _ m' Hm') in Htr.
  apply app_inj_tail in Htr as [<- <-].
  apply NoDup_app in Hnd as (Hnd & Hfresh & _).
  simpl. rewrite Hrefs, length_app. simpl.
  replace (length refs + 1 - 1) with (length refs) by lia.
  rewrite list_lookup_middle by done. rewrite Hm'.
  eexists. split; [reflexivity |]. split_and!.
  - unfold wf. simpl. apply wfCell_alter. split; [| apply Forall_app].
    + apply NoDup_app. split_and!; [done.. | apply NoDup_singleton].
    + split; [done | by apply Forall_singleton].
  - unfold transcript. simpl.
    rewrite (render_snoc _ _ _ (setText t m')).
    + rewrite render_alter_ne; [done |].
      intros Hin. apply (Hfresh r Hin). by apply list_elem_of_singleton.
    + by rewrite list_lookup_alter_eq, Hm'.
  - done.
Qed.

Lemma applyUpdater_SetLastText_empty (a : App) (t : string) :
  messages a = [] → applyUpdater (SetLastText t) a = None.
Proof. intros H. simpl. by rewrite H. Qed.

End Cell.

(** ** The handler, segment by segment *)

Section Handler.
Import Js.

(** Line 48. *)
Lemma handleSendMessage_guard (input : string) (isLoading : bool)
    (chatCurrent : option Chat) :
  truthy (trim input) = false ∨ isLoading = true →
  handleSendMessage input isLoading chatCurrent = ([], Returned).
Proof.
  unfold handleSendMessage. intros [-> | ->]; [done |].
  by rewrite orb_true_r.
Qed.

Lemma handleSendMessage_image (input : string) (chatCurrent : option Chat) :
  isImageCommand input = true →
  handleSendMessage input false chatCurrent =
    ([SetMessages (Append (fromUser input)); SetInput EmptyString;
      SetIsLoading true;
      Call (GenerateImages (imageRequest (extractPrompt input)))],
     Suspended (AwaitGenerateImages (extractPrompt input))).
Proof.
  intros H. unfold handleSendMessage, tryStart.
  rewrite truthy_trim, (isImageCommand_hasInk _ H).
  unfold isImageCommand in H. by rewrite H.
Qed.

Lemma handleSendMessage_chat (input : string) (session : Chat) :
  truthy (trim input) = true → isImageCommand input = false →
  handleSendMessage input false (Some session) =
    ([SetMessages (Append (fromUser input)); SetInput EmptyString;
      SetIsLoading true; Call (SendMessageStream session input)],
     Suspended AwaitSendMessageStream).
Proof.
  intros Hg H. unfold handleSendMessage, tryStart.
  unfold isImageCommand in H. by rewrite Hg, H.
Qed.

Lemma handleSendMessage_uninitialised (input : string) :
  truthy (trim input) = true → isImageCommand input = false →
  handleSendMessage input false None =
    ([SetMessages (Append (fromUser input)); SetInput EmptyString;
      SetIsLoading true;
      ConsoleError "AI Error:" (mkError "Chat not initialized.");
      SetMessages (Append errorMessage); SetIsLoading false],
     Returned).
Proof.
  intros Hg H. unfold handleSendMessage, tryStart.
  unfold isImageCommand in H. by rewrite Hg, H.
Qed.

(** A segment that throws has done nothing before the throw. *)
Lemma tryResume_Throw (t : Task) (d : Delivery) (effects : list Effect)
    (e : Error) :
  tryResume t d = Some (effects, Throw e) → effects = [].
Proof.
  destruct t, d; simpl; try destruct (generatedImages _);
    intros H; by simplify_eq.
Qed.

Lemma resume_Throw (t : Task) (d : Delivery) (effects : list Effect)
    (e : Error) :
  tryResume t d = Some (effects, Throw e) →
  resume t d =
    Some ([ConsoleError "AI Error:" e; SetMessages (Append errorMessage);
           SetIsLoading false], Returned).
Proof.
  intros H. unfold resume. rewrite H.
  by rewrite (tryResume_Throw _ _ _ _ H).
Qed.

End Handler.

(** ** One event at a time *)

Ltac cell :=
  unfold wf, transcript in *; simpl;
  repeat first
    [ done
    | rewrite render_push by eauto using wfCell_push
    | apply wfCell_push ].

Section Steps.
Import Js.

(** Line 48: a blocked submission changes nothing at all. *)
Lemma step_Submit_blocked (a : App) :
  truthy (trim (input a)) = false ∨ isLoading a = true →
  step a Submit = Ok a.
Proof.
  intros H. unfold step. by rewrite handleSendMessage_guard.
Qed.

Lemma step_Submit_image (a : App) :
  wf a → isLoading a = false → isImageCommand (input a) = true →
  ∃ a', step a Submit = Ok a' ∧ wf a' ∧
    view a' =
      {| vTranscript := transcript a ++ [fromUser (input a)];
         vInput := EmptyString; vIsLoading := true; vChat := chat a;
         vPending :=
           pending a ++ [AwaitGenerateImages (extractPrompt (input a))];
         vRequests :=
           requests a
           ++ [GenerateImages (imageRequest (extractPrompt (input a)))];
         vConsole := console a |}.
Proof.
  intros Hwf Hl Hi. unfold step.
  rewrite Hl, handleSendMessage_image by done.
  eexists. split; [reflexivity |]. split; [cell |].
  unfold view. simpl. f_equal. cell.
Qed.

Lemma step_Submit_chat (a : App) (session : Chat) :
  wf a → isLoading a = false → chat a = Some session →
  truthy (trim (input a)) = true → isImageCommand (input a) = false →
  ∃ a', step a Submit = Ok a' ∧ wf a' ∧
    view a' =
      {| vTranscript := transcript a ++ [fromUser (input a)];
         vInput := EmptyString; vIsLoading := true; vChat := chat a;
         vPending := pending a ++ [AwaitSendMessageStream];
         vRequests := requests a ++ [SendMessageStream session (input a)];
         vConsole := console a |}.
Proof.
  intros Hwf Hl Hc Hg Hi. unfold step.
  rewrite Hl, Hc, handleSendMessage_chat by done.
  eexists. split; [reflexivity |]. split; [cell |].
  unfold view. simpl. rewrite Hc. f_equal. cell.
Qed.

Lemma step_Submit_uninitialised (a : App) :
  wf a → isLoading a = false → chat a = None →
  truthy (trim (input a)) = true → isImageCommand (input a) = false →
  ∃ a', step a Submit = Ok a' ∧ wf a' ∧
    view a' =
      {| vTranscript :=
           transcript a ++ [fromUser (input a); errorMessage];
         vInput := EmptyString; vIsLoading := false; vChat := chat a;
         vPending := pending a;
         vRequests := requests a;
         vConsole := console a ++ [mkError "Chat not initialized."] |}.
Proof.
  intros Hwf Hl Hc Hg Hi. unfold step.
  rewrite Hl, Hc, handleSendMessage_uninitialised by done.
  eexists. split; [reflexivity |]. split; [cell |].
  unfold view. simpl. rewrite Hc. f_equal. cell.
  by rewrite <- app_assoc.
Qed.

(** Lines 101-107: whatever the [try] block throws after an [await]. *)
Lemma step_Settle_Throw (a : App) (i : nat) (t : Task) (d : Delivery)
    (effects : list Effect) (e : Error) :
  wf a → pending a !! i = Some t →
  tryResume t d = Some (effects, Throw e) →
  ∃ a', step a (Settle i d) = Ok a' ∧ wf a' ∧
    view a' =
      {| vTranscript := transcript a ++ [errorMessage];
         vInput := input a; vIsLoading := false; vChat := chat a;
         vPending := delete i (pending a);
         vRequests := requests a;
         vConsole := console a ++ [e] |}.
Proof.
  intros Hwf Hp Ht. unfold step.
  rewrite Hp, (resume_Throw _ _ _ _ Ht).
  eexists. split; [reflexivity |]. split; [cell |].
  unfold view. simpl. f_equal. cell.
Qed.

(** Lines 75-82. *)
Lemma step_Settle_image (a : App) (i : nat) (prompt : string)
    (first : GeneratedImage) (others : list GeneratedImage) :
  wf a → pending a !! i = Some (AwaitGenerateImages prompt) →
  ∃ a',
    step a (Settle i (ImagesFulfilled (mkResponse (first :: others))))
      = Ok a' ∧ wf a' ∧
    view a' =
      {| vTranscript :=
           transcript a ++ [imageMessage prompt (imageBytes (image first))];
         vInput := input a; vIsLoading := false; vChat := chat a;
         vPending := delete i (pending a);
         vRequests := requests a;
         vConsole := console a |}.
Proof.
  intros Hwf Hp. unfold step. rewrite Hp. simpl.
  eexists. split; [reflexivity |]. split; [cell |].
  unfold view. simpl. f_equal. cell.
Qed.

(** Lines 87-91. *)
Lemma step_Settle_stream (a : App) (i : nat) :
  wf a → pending a !! i = Some AwaitSendMessageStream →
  ∃ a', step a (Settle i StreamFulfilled) = Ok a' ∧ wf a' ∧
    view a' =
      {| vTranscript :=
           transcript a
           ++ [ {| text := EmptyString; sender := ai; imageUrl := None |} ];
         vInput := input a; vIsLoading := isLoading a; vChat := chat a;
         vPending := <[i := AwaitNextChunk EmptyString]> (pending a);
         vRequests := requests a;
         vConsole := console a |}.
Proof.
  intros Hwf Hp. unfold step. rewrite Hp. simpl.
  eexists. split; [reflexivity |]. split; [cell |].
  unfold view. simpl. f_equal. cell.
Qed.

(** Lines 92-99, one iteration. *)
Lemma step_Settle_chunk (a : App) (i : nat) (fullResponse : string)
    (chunk : Chunk) (ms : list Message) (m : Message) :
  wf a → pending a !! i = Some (AwaitNextChunk fullResponse) →
  transcript a = ms ++ [m] →
  ∃ a', step a (Settle i (NextChunk chunk)) = Ok a' ∧ wf a' ∧
    view a' =
      {| vTranscript :=
           ms ++ [setText (fullResponse +:+ chunkText chunk) m];
         vInput := input a; vIsLoading := isLoading a; vChat := chat a;
         vPending :=
           <[i := AwaitNextChunk (fullResponse +:+ chunkText chunk)]>
             (pending a);
         vRequests := requests a;
         vConsole := console a |}.
Proof.
  intros Hwf Hp Htr. unfold step. rewrite Hp.
  destruct (applyUpdater_SetLastText a
              (fullResponse +:+ chunkText chunk) ms m Hwf Htr)
    as (a' & Ha' & Hwf' & Htr' & Hsc).
  change (resume (AwaitNextChunk fullResponse) (NextChunk chunk))
    with (Some ([SetMessages
                   (SetLastText (fullResponse +:+ chunkText chunk))],
                Suspended
                  (AwaitNextChunk (fullResponse +:+ chunkText chunk)))).
  unfold applyEffects, applyEffect. rewrite Ha'.
  eexists. split; [reflexivity |]. split; [done |].
  unfold scalars in Hsc. simplify_eq.
  unfold view. simpl. f_equal; first [exact Htr' | congruence].
Qed.

(** The loop of line 92 ends. *)
Lemma step_Settle_done (a : App) (i : nat) (fullResponse : string) :
  wf a → pending a !! i = Some (AwaitNextChunk fullResponse) →
  ∃ a', step a (Settle i StreamDone) = Ok a' ∧ wf a' ∧
    view a' =
      {| vTranscript := transcript a;
         vInput := input a; vIsLoading := false; vChat := chat a;
         vPending := delete i (pending a);
         vRequests := requests a;
         vConsole := console a |}.
Proof.
  intros Hwf Hp. unfold step. rewrite Hp. simpl.
  eexists. split; [reflexivity |]. split; [cell |].
  unfold view. simpl. f_equal.
Qed.

End Steps.

(** ** What every reachable state satisfies *)

Section Reachable.
Import Js.

Lemma consistent_initial : consistent initial.
Proof.
  split_and!.
  - split; [apply NoDup_singleton | apply Forall_singleton; simpl; lia].
  - done.
  - by left.
Qed.

Lemma transcript_snoc (a : App) :
  wf a → messages a ≠ [] → ∃ ms m, transcript a = ms ++ [m].
Proof.
  intros Hwf Hne.
  destruct (transcript a) as [|m0 ms0] eqn:Htr using rev_ind.
  - by apply (transcript_nil a Hwf) in Htr.
  - by exists ms0, m0.
Qed.

(** A state is consistent as soon as its view says so. *)
Lemma consistent_view (a : App) (v : View) :
  wf a → view a = v → vTranscript v ≠ [] →
  (vIsLoading v = false ∧ vPending v = []
   ∨ ∃ t, vIsLoading v = true ∧ vPending v = [t]) →
  consistent a.
Proof.
  intros Hwf <- Htr Hphase. split_and!; [done | | done].
  intros Hm. by apply (transcript_nil a Hwf) in Hm.
Qed.

Lemma consistent_transcript (a : App) : consistent a → transcript a ≠ [].
Proof.
  intros (Hwf & Hne & _) Htr. by apply (transcript_nil a Hwf) in Htr.
Qed.

Ltac by_view H :=
  eapply consistent_view; [eassumption | exact H | simpl | simpl].

Lemma consistent_step (a : App) (ev : Event) :
  consistent a →
  match step a ev with
  | Ok a' => consistent a'
  | Uncaught => False
  | Disabled => True
  end.
Proof.
  intros Hc. pose proof (consistent_transcript a Hc) as Hne.
  destruct Hc as (Hwf & Hm & Hphase). destruct ev as [| value | | i d].
  - (* Mount *)
    simpl. by destruct (chat a).
  - (* Change *)
    done.
  - (* Submit *)
    destruct Hphase as [[Hl Hp] | (t & Hl & Hp)].
    2: { rewrite step_Submit_blocked by auto. split_and!; eauto. by right; exists t. }
    destruct (truthy (trim (input a))) eqn:Hg.
    2: { rewrite step_Submit_blocked by auto. split_and!; eauto. by left. }
    destruct (isImageCommand (input a)) eqn:Hi.
    { destruct (step_Submit_image a Hwf Hl Hi) as (a' & -> & Hwf' & Hv).
      by_view Hv; [by destruct (transcript a) | rewrite Hp; eauto]. }
    destruct (chat a) as [session|] eqn:Hchat.
    + destruct (step_Submit_chat a session Hwf Hl Hchat Hg Hi)
        as (a' & -> & Hwf' & Hv).
      by_view Hv; [by destruct (transcript a) | rewrite Hp; eauto].
    + destruct (step_Submit_uninitialised a Hwf Hl Hchat Hg Hi)
        as (a' & -> & Hwf' & Hv).
      by_view Hv; [by destruct (transcript a) | rewrite Hp; eauto].
  - (* Settle *)
    destruct Hphase as [[Hl Hp] | (t & Hl & Hp)].
    { simpl. by rewrite Hp. }
    destruct i as [|i]; [| simpl; by rewrite Hp].
    assert (pending a !! 0 = Some t) as Hp0 by (by rewrite Hp).
    destruct (tryResume t d) as [[effects [| e | t']]|] eqn:Ht.
    + (* the handler returns normally *)
      destruct t as [prompt | | fullResponse], d as [[[|first others]] | | chunk | | e];
        simpl in Ht; simplify_eq.
      * destruct (step_Settle_image a 0 prompt first others Hwf Hp0)
          as (a' & -> & Hwf' & Hv).
        by_view Hv; [by destruct (transcript a) | rewrite Hp; eauto].
      * destruct (step_Settle_done a 0 fullResponse Hwf Hp0)
          as (a' & -> & Hwf' & Hv).
        by_view Hv; [done | rewrite Hp; eauto].
    + (* the handler throws *)
      pose proof (tryResume_Throw _ _ _ _ Ht) as ->.
      destruct (step_Settle_Throw a 0 t d [] e Hwf Hp0 Ht)
        as (a' & -> & Hwf' & Hv).
      by_view Hv; [by destruct (transcript a) | rewrite Hp; eauto].
    + (* the handler awaits again *)
      destruct t as [prompt | | fullResponse], d as [[[|first others]] | | chunk | | e];
        simpl in Ht; simplify_eq.
      * destruct (step_Settle_stream a 0 Hwf Hp0) as (a' & -> & Hwf' & Hv).
        by_view Hv; [by destruct (transcript a) | rewrite Hp, Hl; eauto].
      * destruct (transcript_snoc a Hwf Hm) as (ms & m & Htr).
        destruct (step_Settle_chunk a 0 fullResponse chunk ms m Hwf Hp0 Htr)
          as (a' & -> & Hwf' & Hv).
        by_view Hv; [by destruct ms | rewrite Hp, Hl; eauto].
    + (* the delivery does not fit the await *)
      unfold step. rewrite Hp0. unfold resume. by rewrite Ht.
Qed.

Lemma consistent_run (evs : list Event) (a : App) :
  consistent a →
  match run a evs with
  | Ok a' => consistent a'
  | Uncaught => False
  | Disabled => True
  end.
Proof.
  revert a. induction evs as [|ev evs IH]; intros a Hc; simpl; [done |].
  pose proof (consistent_step a ev Hc) as Hs.
  destruct (step a ev) as [a' | |]; [by apply IH | done | done].
Qed.

End Reachable.

(** ** Runs *)

Section Runs.
Import Js.

Lemma view_inv (a : App) (v : View) :
  view a = v →
  transcript a = vTranscript v ∧ input a = vInput v
  ∧ isLoading a = vIsLoading v ∧ chat a = vChat v
  ∧ pending a = vPending v ∧ requests a = vRequests v
  ∧ console a = vConsole v.
Proof. by intros <-. Qed.

Lemma run_app (a : App) (evs1 evs2 : list Event) :
  run a (evs1 ++ evs2) =
    match run a evs1 with
    | Ok a' => run a' evs2
    | r => r
    end.
Proof.
  revert a. induction evs1 as [|ev evs1 IH]; intros a; simpl; [done |].
  destruct (step a ev); [apply IH | done | done].
Qed.

Lemma concat_cons (f : string) (fs : list string) :
  String.concat EmptyString (f :: fs) = f +:+ String.concat EmptyString fs.
Proof. destruct fs; simpl; [by rewrite append_empty_r | done]. Qed.

Lemma concat_snoc (fs : list string) (f : string) :
  String.concat EmptyString (fs ++ [f]) = String.concat EmptyString fs +:+ f.
Proof.
  induction fs as [|f0 fs IH]; [done |].
  change ((f0 :: fs) ++ [f]) with (f0 :: (fs ++ [f])).
  by rewrite !concat_cons, IH, append_assoc.
Qed.

Lemma setText_setText (t t' : string) (m : Message) :
  setText t (setText t' m) = setText t m.
Proof. done. Qed.

Lemma setText_text (m : Message) : setText (text m) m = m.
Proof. by destruct m. Qed.

(** The loop of lines 92-99 over the fragments [fs]: the last message
    collects them in order, everything else stays. *)
Lemma run_chunks (fs : list string) (a : App) (fullResponse : string)
    (ms : list Message) (m : Message) :
  wf a → pending a = [AwaitNextChunk fullResponse] →
  transcript a = ms ++ [m] → text m = fullResponse →
  ∃ a', run a (deliverChunks fs) = Ok a' ∧ wf a' ∧
    view a' =
      {| vTranscript :=
           ms ++ [setText (fullResponse +:+ String.concat EmptyString fs) m];
         vInput := input a; vIsLoading := isLoading a; vChat := chat a;
         vPending :=
           [AwaitNextChunk (fullResponse +:+ String.concat EmptyString fs)];
         vRequests := requests a;
         vConsole := console a |}.
Proof.
  revert a fullResponse m.
  induction fs as [|f fs IH]; intros a fullResponse m Hwf Hp Htr Hm.
  - exists a. split; [done |]. split; [done |].
    simpl. rewrite append_empty_r, <- Hm, setText_text.
    unfold view. by rewrite Htr, Hp, Hm.
  - assert (pending a !! 0 = Some (AwaitNextChunk fullResponse)) as Hp0
      by (by rewrite Hp).
    destruct (step_Settle_chunk a 0 fullResponse (mkChunk f) ms m Hwf Hp0 Htr)
      as (a1 & Hs & Hwf1 & Hv).
    apply view_inv in Hv as (Htr1 & Hin1 & Hl1 & Hc1 & Hp1 & Hr1 & Ho1).
    simpl in Htr1, Hin1, Hl1, Hc1, Hp1, Hr1, Ho1.
    rewrite Hp in Hp1. simpl in Hp1.
    destruct (IH a1 (fullResponse +:+ f) _ Hwf1 Hp1 Htr1 eq_refl)
      as (a' & Hrun & Hwf' & Hv').
    exists a'. split; [| split; [done |]].
    + change (deliverChunks (f :: fs))
        with (Settle 0 (NextChunk (mkChunk f)) :: deliverChunks fs).
      cbn [run]. by rewrite Hs.
    + rewrite Hv', setText_setText, concat_cons, append_assoc.
      by rewrite Hin1, Hl1, Hc1, Hr1, Ho1.
Qed.

(** A conversational submission up to the first fragment: lines
    50-54 and 85-91. *)
Lemma stream_opened (a : App) (session : Chat) :
  wf a → idle a → chat a = Some session →
  truthy (trim (input a)) = true → isImageCommand (input a) = false →
  ∃ a1 a2,
    step a Submit = Ok a1 ∧ wf a1
    ∧ view a1 =
        {| vTranscript := transcript a ++ [fromUser (input a)];
           vInput := EmptyString; vIsLoading := true;
           vChat := Some session;
           vPending := [AwaitSendMessageStream];
           vRequests := requests a ++ [SendMessageStream session (input a)];
           vConsole := console a |}
    ∧ step a1 (Settle 0 StreamFulfilled) = Ok a2 ∧ wf a2
    ∧ view a2 =
        {| vTranscript :=
             transcript a
             ++ [fromUser (input a);
                 {| text := EmptyString; sender := ai; imageUrl := None |}];
           vInput := EmptyString; vIsLoading := true;
           vChat := Some session;
           vPending := [AwaitNextChunk EmptyString];
           vRequests := requests a ++ [SendMessageStream session (input a)];
           vConsole := console a |}.
Proof.
  intros Hwf [Hl Hp] Hc Hg Hi.
  destruct (step_Submit_chat a session Hwf Hl Hc Hg Hi)
    as (a1 & Hs1 & Hwf1 & Hv1).
  rewrite Hp, Hc in Hv1. simpl in Hv1.
  pose proof (view_inv _ _ Hv1) as (Htr1 & Hin1 & Hl1 & Hc1 & Hp1 & Hr1 & Ho1).
  simpl in Htr1, Hin1, Hl1, Hc1, Hp1, Hr1, Ho1.
  assert (pending a1 !! 0 = Some AwaitSendMessageStream) as Hp0
    by (by rewrite Hp1).
  destruct (step_Settle_stream a1 0 Hwf1 Hp0) as (a2 & Hs2 & Hwf2 & Hv2).
  exists a1, a2. split_and!; [done.. |].
  rewrite Hv2, Htr1, Hin1, Hl1, Hc1, Hp1, Hr1, Ho1. simpl.
  by rewrite <- app_assoc.
Qed.

End Runs.

(** ** The scenarios of the specification, run *)

Section Scenarios.

Example question_answered :
  observe
    (run (asked "What RPM should I run a ceramic bearing spindle at?")
       ([Submit; Settle 0 StreamFulfilled]
        ++ deliverChunks ["Up to "; "30,000 "; "rpm."]
        ++ [Settle 0 StreamDone]))
  = Some
      {| vTranscript :=
           [ {| text := greeting; sender := ai; imageUrl := None |};
             {| text := "What RPM should I run a ceramic bearing spindle at?";
                sender := user; imageUrl := None |};
             {| text := "Up to 30,000 rpm."; sender := ai; imageUrl := None |} ];
         vInput := EmptyString; vIsLoading := false;
         vChat := Some chatConfig; vPending := [];
         vRequests :=
           [SendMessageStream chatConfig
              "What RPM should I run a ceramic bearing spindle at?"];
         vConsole := [] |}.
Proof. reflexivity. Qed.

Example image_delivered :
  observe
    (run (asked "Generate image of a CNC spindle housing")
       [Submit;
        Settle 0 (ImagesFulfilled
                    (mkResponse [mkGeneratedImage (mkImage "iVBORw0KGgo=")]))])
  = Some
      {| vTranscript :=
           [ {| text := greeting; sender := ai; imageUrl := None |};
             {| text := "Generate image of a CNC spindle housing";
                sender := user; imageUrl := None |};
             {| text := "Here is the image of " +:+ dquote
                        +:+ "a CNC spindle housing" +:+ dquote
                        +:+ " you requested.";
                sender := ai;
                imageUrl := Some "data:image/png;base64,iVBORw0KGgo=" |} ];
         vInput := EmptyString; vIsLoading := false;
         vChat := Some chatConfig; vPending := [];
         vRequests :=
           [GenerateImages
              {| model := "imagen-3.0-generate-002";
                 prompt := "A high-quality, detailed image of a CNC spindle housing in an industrial setting.";
                 numberOfImages := 1;
                 outputMimeType := "image/png" |}];
         vConsole := [] |}.
Proof. reflexivity. Qed.

Example backend_down :
  observe
    (run (asked "Which bearing preload?")
       [Submit; Settle 0 (Rejected (mkError "fetch failed"))])
  = Some
      {| vTranscript :=
           [ {| text := greeting; sender := ai; imageUrl := None |};
             {| text := "Which bearing preload?"; sender := user;
                imageUrl := None |};
             {| text := "Sorry, I encountered an error. Please try again.";
                sender := ai; imageUrl := None |} ];
         vInput := EmptyString; vIsLoading := false;
         vChat := Some chatConfig; vPending := [];
         vRequests := [SendMessageStream chatConfig "Which bearing preload?"];
         vConsole := [mkError "fetch failed"] |}.
Proof. reflexivity. Qed.

(** A second submission while the first streams is ignored, and a
    delivery nobody awaits cannot happen. *)
Example resubmission_ignored :
  observe
    (run (asked "hi")
       [Submit; Settle 0 StreamFulfilled; Change "again"; Submit;
        Settle 0 (NextChunk (mkChunk "par"))])
  = Some
      {| vTranscript :=
           [ {| text := greeting; sender := ai; imageUrl := None |};
             {| text := "hi"; sender := user; imageUrl := None |};
             {| text := "par"; sender := ai; imageUrl := None |} ];
         vInput := "again"; vIsLoading := true;
         vChat := Some chatConfig; vPending := [AwaitNextChunk "par"];
         vRequests := [SendMessageStream chatConfig "hi"];
         vConsole := [] |}
  ∧ run (asked "hi") [Settle 0 StreamDone] = Disabled.
Proof. split; reflexivity. Qed.

End Scenarios.

(** * The claims *)

Section Claims.
Import Js.

(** C10. Before any submission the transcript holds exactly one
    message, the assistant's fixed greeting without an image, and the
    loading flag is false. *)
Theorem initial_state :
  transcript initial =
    [ {| text := "Hello! I am Kohli AI, your smart and friendly assistant for everything related to industrial spindle technology. How can I assist you today?";
         sender := ai; imageUrl := None |} ]
  ∧ isLoading initial = false.
Proof. split; reflexivity. Qed.

(** The same holds until the first submission: mounting and typing
    change neither the transcript nor the flag, and nothing is there
    to settle. *)
Lemma before_first_submission (evs : list Event) :
  Submit ∉ evs →
  match run initial evs with
  | Ok a => transcript a = transcript initial ∧ isLoading a = false
  | Uncaught => False
  | Disabled => True
  end.
Proof.
  assert (∀ a, transcript a = transcript initial ∧ isLoading a = false
               ∧ pending a = [] →
               Submit ∉ evs →
               match run a evs with
               | Ok a' => transcript a' = transcript initial
                          ∧ isLoading a' = false
               | Uncaught => False
               | Disabled => True
               end) as H.
  { induction evs as [|ev evs IH]; intros a (Htr & Hl & Hp) Hno; simpl.
    - done.
    - apply not_elem_of_cons in Hno as [Hev Hno].
      destruct ev as [| value | | i d]; simpl.
      + apply IH; [| done]. by destruct (chat a).
      + by apply IH.
      + done.
      + by rewrite Hp. }
  by apply H.
Qed.

(** C5. A submission whose input is empty after trimming, or made
    while the loading flag is set, leaves the whole state as it was:
    the transcript and the flag in particular. *)
Theorem blocked_submission (a : App) :
  trim (input a) = EmptyString ∨ isLoading a = true →
  ∃ a', step a Submit = Ok a' ∧ a' = a
        ∧ transcript a' = transcript a ∧ isLoading a' = isLoading a.
Proof.
  intros H. exists a. split_and!; [| done..].
  apply step_Submit_blocked. destruct H as [H | H]; [left | by right].
  by rewrite H.
Qed.

Lemma blocked_submission_witness :
  ∃ a', step (setInput "   " initial) Submit = Ok a'
        ∧ a' = setInput "   " initial
        ∧ transcript a' = transcript (setInput "   " initial)
        ∧ isLoading a' = isLoading (setInput "   " initial).
Proof. apply (blocked_submission (setInput "   " initial)). left. reflexivity. Defined.

(** C2, as stated, fails on an input that is a command prefix and
    nothing more: its lower-cased form starts with the prefix, yet
    line 68 does not take it for an image command and the handler
    sends it to the chat. *)
Lemma bare_prefix_not_image_command :
  startsWith (toLowerCase "generate image of ") "generate image of " = true
  ∧ isImageCommand "generate image of " = false
  ∧ handleSendMessage "generate image of " false (Some chatConfig) =
      ([SetMessages (Append (fromUser "generate image of "));
        SetInput EmptyString; SetIsLoading true;
        Call (SendMessageStream chatConfig "generate image of ")],
       Suspended AwaitSendMessageStream).
Proof. split_and!; reflexivity. Qed.

(** C2 (amended). An input is taken for an image command exactly when
    its lower-cased form starts with one of the two prefixes and the
    input is longer than that prefix.  Whenever the lower-cased form
    starts with a prefix, in whatever case the input spells it, the
    extracted prompt is the rest of the original input, unchanged.  An
    input that begins with white space matches neither prefix. *)
Theorem image_command_classification (currentInput : string) :
  (isImageCommand currentInput = true ↔
     startsWith (toLowerCase currentInput) "generate image of " = true
     ∧ String.length "generate image of " < String.length currentInput
     ∨ startsWith (toLowerCase currentInput) "generate an image of " = true
       ∧ String.length "generate an image of " < String.length currentInput)
  ∧ (∀ p x, currentInput = p +:+ x →
            toLowerCase p = "generate image of "
            ∨ toLowerCase p = "generate an image of " →
            extractPrompt currentInput = x)
  ∧ (∀ c rest, currentInput = String c rest → isWhiteSpace c = true →
               matchesPrefix currentInput = false
               ∧ isImageCommand currentInput = false).
Proof.
  split_and!.
  - unfold isImageCommand, extractPrompt.
    change "generate image of " with imageCommand.
    change "generate an image of " with imageCommandAlt.
    destruct (startsWith (toLowerCase currentInput) imageCommand) eqn:H1.
    + rewrite (command_excludes_alt _ H1), substring_truthy.
      intuition congruence.
    + destruct (startsWith (toLowerCase currentInput) imageCommandAlt) eqn:H2.
      * rewrite substring_truthy. intuition congruence.
      * simpl. intuition congruence.
  - intros p x -> Hp. by apply extractPrompt_prefix.
  - intros c rest -> Hc. apply lowerUnit_whiteSpace in Hc.
    pose proof (matchesPrefix_head c rest Hc) as Hm. split; [done |].
    unfold isImageCommand. by rewrite extractPrompt_no_match.
Qed.

Lemma image_command_classification_witness :
  isImageCommand "GeNeRaTe An ImAgE oF a Spindle" = true
  ∧ extractPrompt "GeNeRaTe An ImAgE oF a Spindle" = "a Spindle"
  ∧ isImageCommand " generate image of a spindle" = false.
Proof.
  split_and!.
  - apply (proj1 (image_command_classification
                    "GeNeRaTe An ImAgE oF a Spindle")).
    right. split; [reflexivity | simpl; lia].
  - apply (proj1 (proj2 (image_command_classification
                           "GeNeRaTe An ImAgE oF a Spindle"))
             "GeNeRaTe An ImAgE oF " "a Spindle");
      [reflexivity | right; reflexivity].
  - apply (proj2 (proj2 (image_command_classification
                           " generate image of a spindle"))
             " "%char "generate image of a spindle");
      reflexivity.
Defined.

(** C1. A submission that passes the guard and matches neither command
    prefix appends one user message, then, once the stream opens, one
    assistant message with empty text; when the stream has delivered
    the fragments [fs] and ended, that assistant message holds their
    concatenation in delivery order, nothing else was appended, and the
    only request made is the chat request. *)
Theorem conversational_turn (a : App) (session : Chat) (fs : list string) :
  wf a → idle a → chat a = Some session →
  trim (input a) ≠ EmptyString → matchesPrefix (input a) = false →
  ∃ a1 a2 a3,
    step a Submit = Ok a1
    ∧ transcript a1 =
        transcript a
        ++ [ {| text := input a; sender := user; imageUrl := None |} ]
    ∧ step a1 (Settle 0 StreamFulfilled) = Ok a2
    ∧ transcript a2 =
        transcript a
        ++ [ {| text := input a; sender := user; imageUrl := None |};
             {| text := EmptyString; sender := ai; imageUrl := None |} ]
    ∧ run a2 (deliverChunks fs ++ [Settle 0 StreamDone]) = Ok a3
    ∧ view a3 =
        {| vTranscript :=
             transcript a
             ++ [ {| text := input a; sender := user; imageUrl := None |};
                  {| text := String.concat EmptyString fs; sender := ai;
                     imageUrl := None |} ];
           vInput := EmptyString; vIsLoading := false;
           vChat := Some session; vPending := [];
           vRequests := requests a ++ [SendMessageStream session (input a)];
           vConsole := console a |}.
Proof.
  intros Hwf Hidle Hc Hg Hm.
  apply truthy_true in Hg.
  assert (isImageCommand (input a) = false) as Hi
    by (unfold isImageCommand; by rewrite extractPrompt_no_match).
  destruct (stream_opened a session Hwf Hidle Hc Hg Hi)
    as (a1 & a2 & Hs1 & Hwf1 & Hv1 & Hs2 & Hwf2 & Hv2).
  apply view_inv in Hv1 as (Htr1 & _).
  apply view_inv in Hv2 as (Htr2 & Hin2 & Hl2 & Hc2 & Hp2 & Hr2 & Ho2).
  simpl in Htr1, Htr2, Hin2, Hl2, Hc2, Hp2, Hr2, Ho2.
  assert (transcript a2 =
            (transcript a ++ [fromUser (input a)])
            ++ [ {| text := EmptyString; sender := ai; imageUrl := None |} ])
    as Htr2' by (by rewrite Htr2, <- app_assoc).
  destruct (run_chunks fs a2 EmptyString _ _ Hwf2 Hp2 Htr2' eq_refl)
    as (a3 & Hrun & Hwf3 & Hv3).
  apply view_inv in Hv3 as (Htr3 & Hin3 & Hl3 & Hc3 & Hp3 & Hr3 & Ho3).
  simpl in Htr3, Hin3, Hl3, Hc3, Hp3, Hr3, Ho3.
  assert (pending a3 !! 0
          = Some (AwaitNextChunk (String.concat EmptyString fs))) as Hp0
    by (by rewrite Hp3).
  destruct (step_Settle_done a3 0 _ Hwf3 Hp0) as (a4 & Hs4 & Hwf4 & Hv4).
  exists a1, a2, a4. split_and!; [done.. | |].
  - rewrite run_app, Hrun. cbn [run]. by rewrite Hs4.
  - rewrite Hv4, Htr3, Hin3, Hc3, Hp3, Hr3, Ho3.
    rewrite Hin2, Hc2, Hr2, Ho2. simpl. by rewrite <- app_assoc.
Qed.

Lemma conversational_turn_witness :
  ∃ a3,
    run (setInput "What RPM?" (setChat (Some chatConfig) initial))
      ([Submit; Settle 0 StreamFulfilled]
       ++ deliverChunks ["Run "; "it "; "it "; "slow."]
       ++ [Settle 0 StreamDone]) = Ok a3
    ∧ transcript a3 =
        transcript initial
        ++ [ {| text := "What RPM?"; sender := user; imageUrl := None |};
             {| text := "Run it it slow."; sender := ai; imageUrl := None |} ]
    ∧ isLoading a3 = false.
Proof.
  destruct (conversational_turn
              (setInput "What RPM?" (setChat (Some chatConfig) initial))
              chatConfig ["Run "; "it "; "it "; "slow."])
    as (a1 & a2 & a3 & Hs1 & _ & Hs2 & _ & Hrun & Hv).
  - apply consistent_initial.
  - split; reflexivity.
  - reflexivity.
  - discriminate.
  - reflexivity.
  - exists a3. split; [| split].
    + change (run (setInput "What RPM?" (setChat (Some chatConfig) initial))
                ([Submit; Settle 0 StreamFulfilled]
                 ++ deliverChunks ["Run "; "it "; "it "; "slow."]
                 ++ [Settle 0 StreamDone]))
        with (match step (setInput "What RPM?"
                            (setChat (Some chatConfig) initial)) Submit with
              | Ok a' =>
                  match step a' (Settle 0 StreamFulfilled) with
                  | Ok a'' =>
                      run a'' (deliverChunks ["Run "; "it "; "it "; "slow."]
                               ++ [Settle 0 StreamDone])
                  | r => r
                  end
              | r => r
              end).
      rewrite Hs1, Hs2. exact Hrun.
    + exact (f_equal vTranscript Hv).
    + exact (f_equal vIsLoading Hv).
Defined.

(** C9. While a conversational response streams, the arrival of a
    fragment changes the text of the last message of the transcript
    and nothing else: that text becomes the concatenation of the
    fragments received so far, the messages before it, its sender and
    imageUrl, the length of the transcript and the rest of the state
    stay as they were. *)
Theorem fragment_frame (a : App) (session : Chat) (fs : list string)
    (fragment : string) :
  wf a → idle a → chat a = Some session →
  trim (input a) ≠ EmptyString → isImageCommand (input a) = false →
  ∃ a2 a3 ms m,
    run a (Submit :: Settle 0 StreamFulfilled :: deliverChunks fs) = Ok a2
    ∧ step a2 (Settle 0 (NextChunk (mkChunk fragment))) = Ok a3
    ∧ transcript a2 = ms ++ [m]
    ∧ transcript a3 =
        ms ++ [ {| text := String.concat EmptyString (fs ++ [fragment]);
                   sender := sender m; imageUrl := imageUrl m |} ]
    ∧ length (transcript a3) = length (transcript a2)
    ∧ input a3 = input a2 ∧ isLoading a3 = isLoading a2
    ∧ chat a3 = chat a2 ∧ requests a3 = requests a2
    ∧ console a3 = console a2
    ∧ length (pending a3) = length (pending a2).
Proof.
  intros Hwf Hidle Hc Hg Hi.
  apply truthy_true in Hg.
  destruct (stream_opened a session Hwf Hidle Hc Hg Hi)
    as (a1 & a2 & Hs1 & Hwf1 & Hv1 & Hs2 & Hwf2 & Hv2).
  apply view_inv in Hv2 as (Htr2 & _ & _ & _ & Hp2 & _).
  simpl in Htr2, Hp2.
  assert (transcript a2 =
            (transcript a ++ [fromUser (input a)])
            ++ [ {| text := EmptyString; sender := ai; imageUrl := None |} ])
    as Htr2' by (by rewrite Htr2, <- app_assoc).
  destruct (run_chunks fs a2 EmptyString _ _ Hwf2 Hp2 Htr2' eq_refl)
    as (a3 & Hrun & Hwf3 & Hv3).
  apply view_inv in Hv3 as (Htr3 & _ & _ & _ & Hp3 & _).
  simpl in Htr3, Hp3.
  assert (pending a3 !! 0
          = Some (AwaitNextChunk (String.concat EmptyString fs))) as Hp0
    by (by rewrite Hp3).
  destruct (step_Settle_chunk a3 0 _ (mkChunk fragment) _ _ Hwf3 Hp0 Htr3)
    as (a4 & Hs4 & Hwf4 & Hv4).
  apply view_inv in Hv4 as (Htr4 & Hin4 & Hl4 & Hc4 & Hp4 & Hr4 & Ho4).
  simpl in Htr4, Hin4, Hl4, Hc4, Hp4, Hr4, Ho4.
  eexists a3, a4, _, _. split_and!; [| exact Hs4 | exact Htr3 | ..];
    try done.
  - cbn [run]. by rewrite Hs1, Hs2.
  - by rewrite Htr4, concat_snoc.
  - by rewrite Htr4, Htr3, !length_app.
  - by rewrite Hp4, length_insert.
Qed.

Lemma fragment_frame_witness :
  ∃ a2 a3 ms m,
    run (setInput "hello" (setChat (Some chatConfig) initial))
      (Submit :: Settle 0 StreamFulfilled :: deliverChunks ["ab"; "cd"])
      = Ok a2
    ∧ step a2 (Settle 0 (NextChunk (mkChunk "ef"))) = Ok a3
    ∧ transcript a2 = ms ++ [m]
    ∧ transcript a3 =
        ms ++ [ {| text := String.concat EmptyString (["ab"; "cd"] ++ ["ef"]);
                   sender := sender m; imageUrl := imageUrl m |} ]
    ∧ length (transcript a3) = length (transcript a2)
    ∧ input a3 = input a2 ∧ isLoading a3 = isLoading a2
    ∧ chat a3 = chat a2 ∧ requests a3 = requests a2
    ∧ console a3 = console a2
    ∧ length (pending a3) = length (pending a2).
Proof.
  apply (fragment_frame (setInput "hello" (setChat (Some chatConfig) initial))
           chatConfig ["ab"; "cd"] "ef").
  - apply consistent_initial.
  - split; reflexivity.
  - reflexivity.
  - discriminate.
  - reflexivity.
Defined.

(** C8. An input whose lower-cased form is exactly a command prefix
    yields the empty prompt and is not an image command; submitted, it
    goes to the chat: the only request made is the chat request for
    the input, or none at all when the session is missing. *)
Theorem bare_command_is_conversational (a : App) :
  toLowerCase (input a) = "generate image of "
  ∨ toLowerCase (input a) = "generate an image of " →
  extractPrompt (input a) = EmptyString
  ∧ isImageCommand (input a) = false
  ∧ (wf a → idle a →
     ∃ a', step a Submit = Ok a'
       ∧ transcript a' =
           transcript a
           ++ {| text := input a; sender := user; imageUrl := None |}
              :: match chat a with
                 | Some _ => []
                 | None => [errorMessage]
                 end
       ∧ requests a' =
           requests a
           ++ match chat a with
              | Some session => [SendMessageStream session (input a)]
              | None => []
              end
       ∧ pending a' =
           match chat a with
           | Some _ => [AwaitSendMessageStream]
           | None => []
           end).
Proof.
  intros Hlow.
  assert (extractPrompt (input a) = EmptyString) as Hx.
  { rewrite <- (append_empty_r (input a)).
    by apply extractPrompt_prefix. }
  assert (isImageCommand (input a) = false) as Hi
    by (unfold isImageCommand; by rewrite Hx).
  split_and!; [done.. |]. intros Hwf [Hl Hp].
  assert (truthy (trim (input a)) = true) as Hg.
  { rewrite truthy_trim. destruct (input a) as [|c rest]; simpl in *.
    - by destruct Hlow.
    - destruct (isWhiteSpace c) eqn:Hc; [| done].
      apply lowerUnit_whiteSpace in Hc. destruct Hlow; simplify_eq. }
  destruct (chat a) as [session|] eqn:Hchat.
  - destruct (step_Submit_chat a session Hwf Hl Hchat Hg Hi)
      as (a' & Hs & _ & Hv).
    apply view_inv in Hv as (Htr & _ & _ & _ & Hp' & Hr & _).
    exists a'. simpl in *. by rewrite Hp in Hp'.
  - destruct (step_Submit_uninitialised a Hwf Hl Hchat Hg Hi)
      as (a' & Hs & _ & Hv).
    apply view_inv in Hv as (Htr & _ & _ & _ & Hp' & Hr & _).
    exists a'. simpl in *. rewrite Hp in Hp'. by rewrite app_nil_r.
Qed.

Lemma bare_command_is_conversational_witness :
  extractPrompt "Generate An Image Of " = EmptyString
  ∧ isImageCommand "Generate An Image Of " = false
  ∧ ∃ a', step (setInput "Generate An Image Of "
                  (setChat (Some chatConfig) initial)) Submit = Ok a'
      ∧ requests a' = [SendMessageStream chatConfig "Generate An Image Of "]
      ∧ pending a' = [AwaitSendMessageStream].
Proof.
  destruct (bare_command_is_conversational
              (setInput "Generate An Image Of "
                 (setChat (Some chatConfig) initial)))
    as (Hx & Hi & Hstep).
  - right. reflexivity.
  - split; [exact Hx |]. split; [exact Hi |].
    destruct (Hstep (proj1 consistent_initial) (conj eq_refl eq_refl))
      as (a' & Hs & _ & Hr & Hp).
    exists a'. split; [exact Hs |]. split; [exact Hr | exact Hp].
Defined.

(** C3. Submitting an input that is an image command with extracted
    prompt X makes exactly one request: the image request whose prompt
    is the wrapper text around X, for one image, encoded as PNG.
    However the backend settles it, no further request follows. *)
Theorem image_request (a : App) :
  wf a → idle a → isImageCommand (input a) = true →
  ∃ a1,
    step a Submit = Ok a1
    ∧ requests a1 =
        requests a
        ++ [GenerateImages
              {| model := "imagen-3.0-generate-002";
                 prompt := "A high-quality, detailed image of "
                           +:+ extractPrompt (input a)
                           +:+ " in an industrial setting.";
                 numberOfImages := 1;
                 outputMimeType := "image/png" |}]
    ∧ pending a1 = [AwaitGenerateImages (extractPrompt (input a))]
    ∧ ∀ d, match step a1 (Settle 0 d) with
           | Ok a2 => requests a2 = requests a1 ∧ pending a2 = []
           | Uncaught => False
           | Disabled => True
           end.
Proof.
  intros Hwf [Hl Hp] Hi.
  destruct (step_Submit_image a Hwf Hl Hi) as (a1 & Hs & Hwf1 & Hv).
  apply view_inv in Hv as (_ & _ & _ & _ & Hp1 & Hr1 & _).
  simpl in Hp1, Hr1. rewrite Hp in Hp1. simpl in Hp1.
  exists a1. split_and!; [done.. |]. intros d.
  assert (pending a1 !! 0
          = Some (AwaitGenerateImages (extractPrompt (input a)))) as Hp0
    by (by rewrite Hp1).
  destruct d as [[[|first others]] | | chunk | | e].
  - destruct (step_Settle_Throw a1 0 _ (ImagesFulfilled (mkResponse [])) []
                (mkError "TypeError") Hwf1 Hp0 eq_refl)
      as (a2 & -> & _ & Hv).
    apply view_inv in Hv as (_ & _ & _ & _ & Hp2 & Hr2 & _).
    simpl in Hp2, Hr2. by rewrite Hp2, Hp1.
  - destruct (step_Settle_image a1 0 _ first others Hwf1 Hp0)
      as (a2 & -> & _ & Hv).
    apply view_inv in Hv as (_ & _ & _ & _ & Hp2 & Hr2 & _).
    simpl in Hp2, Hr2. by rewrite Hp2, Hp1.
  - unfold step. by rewrite Hp0.
  - unfold step. by rewrite Hp0.
  - unfold step. by rewrite Hp0.
  - destruct (step_Settle_Throw a1 0 _ (Rejected e) [] e Hwf1 Hp0 eq_refl)
      as (a2 & -> & _ & Hv).
    apply view_inv in Hv as (_ & _ & _ & _ & Hp2 & Hr2 & _).
    simpl in Hp2, Hr2. by rewrite Hp2, Hp1.
Qed.

Lemma image_request_witness :
  ∃ a1,
    step (setInput "generate an image of a lathe" initial) Submit = Ok a1
    ∧ requests a1 =
        [GenerateImages
           {| model := "imagen-3.0-generate-002";
              prompt := "A high-quality, detailed image of a lathe in an industrial setting.";
              numberOfImages := 1;
              outputMimeType := "image/png" |}]
    ∧ pending a1 = [AwaitGenerateImages "a lathe"].
Proof.
  destruct (image_request (setInput "generate an image of a lathe" initial))
    as (a1 & Hs & Hr & Hp & _).
  - apply consistent_initial.
  - split; reflexivity.
  - reflexivity.
  - exists a1. split; [exact Hs |]. split; [exact Hr | exact Hp].
Defined.

(** C4, as stated, fails on an input that is a command prefix and
    nothing more: it matches the prefix, the extracted prompt is
    empty, and submitting it makes no image request; the one request
    made is the chat request. *)
Lemma bare_prefix_makes_no_image_request :
  matchesPrefix "generate image of " = true
  ∧ extractPrompt "generate image of " = EmptyString
  ∧ ∃ a1,
      step (setInput "generate image of "
              (setChat (Some chatConfig) initial)) Submit = Ok a1
      ∧ requests a1 = [SendMessageStream chatConfig "generate image of "]
      ∧ pending a1 = [AwaitSendMessageStream].
Proof.
  split; [reflexivity |]. split; [reflexivity |].
  eexists. split; [reflexivity |]. split; reflexivity.
Qed.

(** C4 (amended). For an input that spells a command prefix, in
    whatever case, followed by a non-empty X: submitting it makes
    exactly one request, the image request built from X as it stands
    in the input; when the backend answers with an image, the turn
    ends with the user message followed by one assistant message whose
    text quotes X and whose imageUrl is the PNG data URI of the
    returned bytes, and with the loading flag cleared. *)
Theorem image_turn (a : App) (p x : string) (first : GeneratedImage)
    (others : list GeneratedImage) :
  wf a → idle a → input a = p +:+ x → x ≠ EmptyString →
  toLowerCase p = "generate image of "
  ∨ toLowerCase p = "generate an image of " →
  ∃ a1 a2,
    step a Submit = Ok a1
    ∧ requests a1 =
        requests a
        ++ [GenerateImages
              {| model := "imagen-3.0-generate-002";
                 prompt := "A high-quality, detailed image of " +:+ x
                           +:+ " in an industrial setting.";
                 numberOfImages := 1;
                 outputMimeType := "image/png" |}]
    ∧ step a1 (Settle 0 (ImagesFulfilled (mkResponse (first :: others))))
        = Ok a2
    ∧ view a2 =
        {| vTranscript :=
             transcript a
             ++ [ {| text := input a; sender := user; imageUrl := None |};
                  {| text := "Here is the image of " +:+ dquote +:+ x
                             +:+ dquote +:+ " you requested.";
                     sender := ai;
                     imageUrl :=
                       Some ("data:image/png;base64,"
                             +:+ imageBytes (image first)) |} ];
           vInput := EmptyString; vIsLoading := false; vChat := chat a;
           vPending := [];
           vRequests := requests a1;
           vConsole := console a |}.
Proof.
  intros Hwf [Hl Hp] Hin Hx Hlow.
  assert (extractPrompt (input a) = x) as Hex
    by (rewrite Hin; by apply extractPrompt_prefix).
  assert (isImageCommand (input a) = true) as Hi
    by (unfold isImageCommand; rewrite Hex; by apply truthy_true).
  destruct (step_Submit_image a Hwf Hl Hi) as (a1 & Hs1 & Hwf1 & Hv1).
  apply view_inv in Hv1 as (Htr1 & Hin1 & Hl1 & Hc1 & Hp1 & Hr1 & Ho1).
  simpl in Htr1, Hin1, Hl1, Hc1, Hp1, Hr1, Ho1.
  rewrite Hp, Hex in Hp1. simpl in Hp1. rewrite Hex in Hr1.
  assert (pending a1 !! 0 = Some (AwaitGenerateImages x)) as Hp0
    by (by rewrite Hp1).
  destruct (step_Settle_image a1 0 x first others Hwf1 Hp0)
    as (a2 & Hs2 & _ & Hv2).
  exists a1, a2. split_and!; [done.. |].
  rewrite Hv2, Htr1, Hin1, Hc1, Hp1, Ho1. simpl. by rewrite <- app_assoc.
Qed.

Lemma image_turn_witness :
  ∃ a2,
    run (setInput "Generate image of a CNC spindle housing" initial)
      [Submit;
       Settle 0 (ImagesFulfilled
                   (mkResponse [mkGeneratedImage (mkImage "iVBORw0KGgo=")]))]
      = Ok a2
    ∧ transcript a2 =
        transcript initial
        ++ [ {| text := "Generate image of a CNC spindle housing";
                sender := user; imageUrl := None |};
             {| text := "Here is the image of " +:+ dquote
                        +:+ "a CNC spindle housing" +:+ dquote
                        +:+ " you requested.";
                sender := ai;
                imageUrl := Some "data:image/png;base64,iVBORw0KGgo=" |} ]
    ∧ isLoading a2 = false.
Proof.
  destruct (image_turn
              (setInput "Generate image of a CNC spindle housing" initial)
              "Generate image of " "a CNC spindle housing"
              (mkGeneratedImage (mkImage "iVBORw0KGgo=")) [])
    as (a1 & a2 & Hs1 & _ & Hs2 & Hv).
  - apply consistent_initial.
  - split; reflexivity.
  - reflexivity.
  - discriminate.
  - left. reflexivity.
  - exists a2. split; [| split].
    + cbn [run]. rewrite Hs1, Hs2. reflexivity.
    + exact (f_equal vTranscript Hv).
    + exact (f_equal vIsLoading Hv).
Defined.

Example midStream_reached :
  run (asked "hi")
    [Submit; Settle 0 StreamFulfilled; Settle 0 (NextChunk (mkChunk "par"))]
  = Ok midStream.
Proof. reflexivity. Qed.

Lemma midStream_wf : wf midStream.
Proof.
  pose proof (consistent_run
                [Submit; Settle 0 StreamFulfilled;
                 Settle 0 (NextChunk (mkChunk "par"))]
                (asked "hi")) as H.
  rewrite midStream_reached in H. apply H.
  destruct consistent_initial as (Hwf & Hm & Hphase). by split_and!.
Qed.

(** How the backend makes the [try] block throw after an [await]: the
    awaited promise or the stream rejects, or the image response
    carries no image. *)
Lemma tryResume_Rejected (t : Task) (e : Error) :
  tryResume t (Rejected e) = Some ([], Throw e).
Proof. by destruct t. Qed.

Lemma tryResume_no_image (prompt : string) :
  tryResume (AwaitGenerateImages prompt) (ImagesFulfilled (mkResponse []))
  = Some ([], Throw (mkError "TypeError")).
Proof. reflexivity. Qed.


(** C6. When the [try] block throws, after an [await] at whichever
    point of either path or before the first one for want of a
    session, the submission settles: one assistant message with the
    fixed apology is appended at the end of the transcript, everything
    already there (the user message, text streamed so far) stays, the
    loading flag is cleared, the handler leaves the pending list, and
    the error goes to the console and nowhere else. *)
Theorem failure_apology (a : App) :
  wf a →
  (∀ i t d e,
     pending a !! i = Some t → tryResume t d = Some ([], Throw e) →
     ∃ a', step a (Settle i d) = Ok a'
       ∧ view a' =
           {| vTranscript :=
                transcript a
                ++ [ {| text := "Sorry, I encountered an error. Please try again.";
                        sender := ai; imageUrl := None |} ];
              vInput := input a; vIsLoading := false; vChat := chat a;
              vPending := delete i (pending a);
              vRequests := requests a;
              vConsole := console a ++ [e] |})
  ∧ (idle a → chat a = None → trim (input a) ≠ EmptyString →
     isImageCommand (input a) = false →
     ∃ a', step a Submit = Ok a'
       ∧ view a' =
           {| vTranscript :=
                transcript a
                ++ [ {| text := input a; sender := user; imageUrl := None |};
                     {| text := "Sorry, I encountered an error. Please try again.";
                        sender := ai; imageUrl := None |} ];
              vInput := EmptyString; vIsLoading := false; vChat := None;
              vPending := [];
              vRequests := requests a;
              vConsole := console a ++ [mkError "Chat not initialized."] |}).
Proof.
  intros Hwf. split.
  - intros i t d e Hp Ht.
    destruct (step_Settle_Throw a i t d [] e Hwf Hp Ht) as (a' & Hs & _ & Hv).
    by exists a'.
  - intros [Hl Hp] Hc Hg Hi. apply truthy_true in Hg.
    destruct (step_Submit_uninitialised a Hwf Hl Hc Hg Hi)
      as (a' & Hs & _ & Hv).
    exists a'. split; [done |]. by rewrite Hv, Hc, Hp.
Qed.

Lemma failure_apology_witness :
  (∃ a', step midStream (Settle 0 (Rejected (mkError "network"))) = Ok a'
     ∧ transcript a' =
         [ {| text := greeting; sender := ai; imageUrl := None |};
           {| text := "hi"; sender := user; imageUrl := None |};
           {| text := "par"; sender := ai; imageUrl := None |};
           {| text := "Sorry, I encountered an error. Please try again.";
              sender := ai; imageUrl := None |} ]
     ∧ isLoading a' = false ∧ pending a' = [])
  ∧ (∃ a', step (setInput "hi" initial) Submit = Ok a'
       ∧ transcript a' =
           [ {| text := greeting; sender := ai; imageUrl := None |};
             {| text := "hi"; sender := user; imageUrl := None |};
             {| text := "Sorry, I encountered an error. Please try again.";
                sender := ai; imageUrl := None |} ]
       ∧ isLoading a' = false ∧ pending a' = []).
Proof.
  split.
  - destruct (proj1 (failure_apology midStream midStream_wf)
                0 (AwaitNextChunk "par") (Rejected (mkError "network"))
                (mkError "network") eq_refl eq_refl)
      as (a' & Hs & Hv).
    exists a'. split; [exact Hs |]. split; [| split].
    + exact (f_equal vTranscript Hv).
    + exact (f_equal vIsLoading Hv).
    + exact (f_equal vPending Hv).
  - destruct (proj2 (failure_apology (setInput "hi" initial)
                       (proj1 consistent_initial)))
      as (a' & Hs & Hv).
    + split; reflexivity.
    + reflexivity.
    + discriminate.
    + reflexivity.
    + exists a'. split; [exact Hs |]. split; [| split].
      * exact (f_equal vTranscript Hv).
      * exact (f_equal vIsLoading Hv).
      * exact (f_equal vPending Hv).
Defined.

(** A stream that fails after the fragments [fs]: the text streamed
    so far stays in the transcript, the apology follows it. *)
Lemma stream_failure_keeps_partial_text (a : App) (session : Chat)
    (fs : list string) (e : Error) :
  wf a → idle a → chat a = Some session →
  trim (input a) ≠ EmptyString → isImageCommand (input a) = false →
  ∃ a',
    run a (Submit :: Settle 0 StreamFulfilled
           :: deliverChunks fs ++ [Settle 0 (Rejected e)]) = Ok a'
    ∧ transcript a' =
        transcript a
        ++ [ {| text := input a; sender := user; imageUrl := None |};
             {| text := String.concat EmptyString fs; sender := ai;
                imageUrl := None |};
             errorMessage ]
    ∧ isLoading a' = false ∧ pending a' = []
    ∧ console a' = console a ++ [e].
Proof.
  intros Hwf Hidle Hc Hg Hi. apply truthy_true in Hg.
  destruct (stream_opened a session Hwf Hidle Hc Hg Hi)
    as (a1 & a2 & Hs1 & Hwf1 & Hv1 & Hs2 & Hwf2 & Hv2).
  apply view_inv in Hv2 as (Htr2 & _ & _ & _ & Hp2 & _ & Ho2).
  simpl in Htr2, Hp2, Ho2.
  assert (transcript a2 =
            (transcript a ++ [fromUser (input a)])
            ++ [ {| text := EmptyString; sender := ai; imageUrl := None |} ])
    as Htr2' by (by rewrite Htr2, <- app_assoc).
  destruct (run_chunks fs a2 EmptyString _ _ Hwf2 Hp2 Htr2' eq_refl)
    as (a3 & Hrun & Hwf3 & Hv3).
  apply view_inv in Hv3 as (Htr3 & _ & _ & _ & Hp3 & _ & Ho3).
  simpl in Htr3, Hp3, Ho3.
  assert (pending a3 !! 0
          = Some (AwaitNextChunk (String.concat EmptyString fs))) as Hp0
    by (by rewrite Hp3).
  destruct (step_Settle_Throw a3 0 _ (Rejected e) [] e Hwf3 Hp0 eq_refl)
    as (a4 & Hs4 & _ & Hv4).
  apply view_inv in Hv4 as (Htr4 & _ & Hl4 & _ & Hp4 & _ & Ho4).
  simpl in Htr4, Hl4, Hp4, Ho4.
  exists a4. split_and!; [| | done | |].
  - cbn [run]. rewrite Hs1, Hs2, run_app, Hrun. cbn [run]. by rewrite Hs4.
  - rewrite Htr4, Htr3. by rewrite <- !app_assoc.
  - by rewrite Hp4, Hp3.
  - by rewrite Ho4, Ho3, Ho2.
Qed.

End Claims.


(** * Beyond the claims *)

(** ** The step function against the transition relation *)

Section Transitions.
Import Js.

(** On a consistent state every event that can happen is one of the
    transitions, and leaves a consistent state; none makes an updater
    throw. *)
Lemma step_Transition (a : App) (ev : Event) :
  consistent a →
  match step a ev with
  | Ok a' => consistent a' ∧ Transition a ev (view a')
  | Uncaught => False
  | Disabled => True
  end.
Proof.
  intros Hc. pose proof (consistent_step a ev Hc) as Hnext.
  destruct Hc as (Hwf & Hm & Hphase). destruct ev as [| value | | i d].
  - (* Mount *)
    simpl in *. split; [done |].
    pose proof (T_Mount a) as H. unfold view.
    destruct (chat a) as [session|] eqn:Hchat; simpl; by rewrite ?Hchat.
  - (* Change *)
    simpl in *. split; [done |]. apply T_Change.
  - (* Submit *)
    destruct Hphase as [[Hl Hp] | (t & Hl & Hp)].
    2: { rewrite step_Submit_blocked in * by auto.
         split; [done |]. apply T_Blocked. auto. }
    destruct (truthy (trim (input a))) eqn:Hg.
    2: { rewrite step_Submit_blocked in * by auto.
         split; [done |]. apply T_Blocked. auto. }
    destruct (isImageCommand (input a)) eqn:Hi.
    { destruct (step_Submit_image a Hwf Hl Hi) as (a' & Hs & _ & Hv).
      rewrite Hs in *. split; [done |]. rewrite Hv, Hp. by apply T_Image. }
    destruct (chat a) as [session|] eqn:Hchat.
    + destruct (step_Submit_chat a session Hwf Hl Hchat Hg Hi)
        as (a' & Hs & _ & Hv).
      rewrite Hs in *. split; [done |]. rewrite Hv, Hp.
      by apply T_Chat.
    + destruct (step_Submit_uninitialised a Hwf Hl Hchat Hg Hi)
        as (a' & Hs & _ & Hv).
      rewrite Hs in *. split; [done |]. rewrite Hv, Hp.
      by apply T_Uninitialised.
  - (* Settle *)
    destruct Hphase as [[Hl Hp] | (t & Hl & Hp)].
    { simpl. by rewrite Hp. }
    destruct i as [|i]; [| simpl; by rewrite Hp].
    assert (pending a !! 0 = Some t) as Hp0 by (by rewrite Hp).
    assert (busy t a) as Hbusy by done.
    destruct (tryResume t d) as [[effects [| e | t']]|] eqn:Ht.
    + destruct t as [prompt | | fullResponse],
        d as [[[|first others]] | | chunk | | e];
        simpl in Ht; simplify_eq.
      * destruct (step_Settle_image a 0 prompt first others Hwf Hp0)
          as (a' & Hs & _ & Hv).
        rewrite Hs in *. split; [done |]. rewrite Hv, Hp.
        by apply T_ImageOk.
      * destruct (step_Settle_done a 0 fullResponse Hwf Hp0)
          as (a' & Hs & _ & Hv).
        rewrite Hs in *. split; [done |]. rewrite Hv, Hp.
        by apply (T_Done a fullResponse).
    + pose proof (tryResume_Throw _ _ _ _ Ht) as ->.
      destruct (step_Settle_Throw a 0 t d [] e Hwf Hp0 Ht)
        as (a' & Hs & _ & Hv).
      rewrite Hs in *. split; [done |]. rewrite Hv, Hp.
      by apply (T_Throw a t d e).
    + destruct t as [prompt | | fullResponse],
        d as [[[|first others]] | | chunk | | e];
        simpl in Ht; simplify_eq.
      * destruct (step_Settle_stream a 0 Hwf Hp0) as (a' & Hs & _ & Hv).
        rewrite Hs in *. split; [done |]. rewrite Hv, Hp, Hl.
        by apply T_Stream.
      * destruct (transcript_snoc a Hwf Hm) as (ms & m & Htr).
        destruct (step_Settle_chunk a 0 fullResponse chunk ms m Hwf Hp0 Htr)
          as (a' & Hs & _ & Hv).
        rewrite Hs in *. split; [done |]. rewrite Hv, Hp, Hl.
        by apply T_Chunk.
    + unfold step. rewrite Hp0. unfold resume. by rewrite Ht.
Qed.

Lemma admissible_fromUser (s : string) :
  truthy (trim s) = true → admissible (fromUser s) = true.
Proof. done. Qed.

Lemma admissible_imageMessage (prompt base64ImageBytes : string) :
  admissible (imageMessage prompt base64ImageBytes) = true.
Proof.
  unfold admissible, imageMessage. cbn [sender imageUrl text].
  by rewrite startsWith_app.
Qed.

Lemma users_app (l suffix : list Message) :
  length (filter (λ m, isUser m = true) (l ++ suffix))
  = length (filter (λ m, isUser m = true) l)
    + length (filter (λ m, isUser m = true) suffix).
Proof. by rewrite filter_app, length_app. Qed.

(** Every transition keeps what [soundView] says. *)
Lemma soundView_Transition (a : App) (ev : Event) (v : View) :
  soundView (view a) → Transition a ev v → soundView v.
Proof.
  intros (Hg & Hadm & Hstr & Hchat & Hreq & Hcnt) Ht. simpl in *.
  assert (∀ suffix, ∃ rest, transcript a ++ suffix = greetingMessage :: rest)
    as Hg' by (intros suffix; destruct Hg as [rest ->]; by eexists).
  destruct Ht as [ | value | Hblocked | Hidle Hi | session Hidle Hc Hgd Hi
                 | Hidle Hc Hgd Hi | t d e Hb Ht
                 | prompt first others Hb | Hb
                 | fullResponse chunk ms m Hb Htr | fullResponse Hb ].
  - split_and!; try done. simpl.
    destruct (chat a); [exact Hchat | by right].
  - done.
  - done.
  - split_and!; simpl; try done.
    + apply Forall_app. split; [done |]. apply Forall_singleton.
      apply admissible_fromUser.
      by rewrite truthy_trim, isImageCommand_hasInk.
    + apply Forall_app. split; [done |]. by apply Forall_singleton.
    + rewrite users_app, length_app. simpl. lia.
  - split_and!; simpl; try done.
    + apply Forall_app. split; [done |]. apply Forall_singleton.
      by apply admissible_fromUser.
    + apply Forall_app. split; [done |]. apply Forall_singleton.
      intros s Hs. simpl in Hs. rewrite Hc in Hchat.
      destruct Hchat; by simplify_eq.
    + rewrite users_app, length_app. simpl. lia.
  - split_and!; simpl; try done.
    + apply Forall_app. split; [done |]. by repeat constructor.
    + rewrite users_app. simpl. lia.
  - split_and!; simpl; try done.
    + apply Forall_app. split; [done |]. by repeat constructor.
    + rewrite users_app. simpl. lia.
  - split_and!; simpl; try done.
    + apply Forall_app. split; [done |]. apply Forall_singleton.
      apply admissible_imageMessage.
    + rewrite users_app. simpl. lia.
  - split_and!; simpl; try done.
    + apply Forall_app. split; [done |]. by repeat constructor.
    + intros full Hfull. simpl in Hfull. simplify_eq.
      exists (transcript a). split; [| done].
      destruct Hg as [rest ->]. done.
    + rewrite users_app. simpl. lia.
  - destruct (Hstr fullResponse (proj2 Hb)) as (ms0 & Hne & Htr0).
    simpl in Htr0. rewrite Htr0 in Htr.
    apply app_inj_tail in Htr as [-> <-].
    rewrite Htr0 in Hadm, Hcnt, Hg.
    split_and!; simpl; try done.
    + destruct ms as [|m0 ms]; [done |]. destruct Hg as [rest Hg].
      simpl in Hg. simplify_eq. eexists. reflexivity.
    + apply Forall_app in Hadm as [Hadm _].
      apply Forall_app. split; [done |]. by repeat constructor.
    + intros full Hfull. simpl in Hfull. simplify_eq. by exists ms.
    + rewrite users_app in *. simpl in *. lia.
  - done.
Qed.

Lemma sound_initial : sound initial.
Proof.
  split; [apply consistent_initial |]. split_and!; simpl.
  - by eexists.
  - by repeat constructor.
  - intros full Hfull. simpl in Hfull. discriminate.
  - by left.
  - constructor.
  - lia.
Qed.

Lemma sound_step (a : App) (ev : Event) :
  sound a →
  match step a ev with
  | Ok a' => sound a' ∧ Transition a ev (view a')
  | Uncaught => False
  | Disabled => True
  end.
Proof.
  intros [Hc Hv]. pose proof (step_Transition a ev Hc) as Hs.
  destruct (step a ev) as [a' | |]; [| done..].
  destruct Hs as [Hc' Ht]. split; [| done].
  split; [done |]. by eapply soundView_Transition.
Qed.

Lemma sound_run (evs : list Event) (a : App) :
  sound a →
  match run a evs with
  | Ok a' => sound a'
  | Uncaught => False
  | Disabled => True
  end.
Proof.
  revert a. induction evs as [|ev evs IH]; intros a Hs; cbn [run]; [done |].
  pose proof (sound_step a ev Hs) as Hstep.
  destruct (step a ev) as [a' | |]; [apply IH, Hstep | done | done].
Qed.

End Transitions.

(** ** The loading flag, lines 48, 54 and 105-107 *)

Section LoadingFlag.
Import Js.




End LoadingFlag.

(** ** What the effects of a segment do to the state *)

Section Effects.
Import Js.

Lemma applyUpdater_scalars (u : Updater) (a a' : App) :
  applyUpdater u a = Some a' → scalars a' = scalars a.
Proof.
  destruct u as [m | t]; simpl.
  - by intros [= <-].
  - destruct (messages a !! _) as [r|]; [| done].
    destruct (store a !! r); [| done]. by intros [= <-].
Qed.

(** The effects touch neither the session nor the list of suspended
    handlers; they add their calls to the requests, in order, and leave
    the draft at the last value they set, if any. *)
Lemma applyEffects_frame (effects : list Effect) (a a' : App) :
  applyEffects effects a = Some a' →
  chat a' = chat a ∧ pending a' = pending a
  ∧ requests a' = requests a ++ callsOf effects
  ∧ input a' = draftAfter effects (input a).
Proof.
  revert a. induction effects as [|e effects IH]; intros a H; simpl in H.
  - simplify_eq. by rewrite app_nil_r.
  - destruct (applyEffect e a) as [a1|] eqn:He; [| done].
    destruct (IH a1 H) as (Hc & Hp & Hr & Hi).
    rewrite Hc, Hp, Hr, Hi. clear IH H Hc Hp Hr Hi.
    destruct e as [u | value | b | r | label err]; simpl in He.
    + apply applyUpdater_scalars in He. unfold scalars in He. simplify_eq.
      split_and!; simpl; congruence.
    + simplify_eq. done.
    + simplify_eq. done.
    + simplify_eq. simpl. by rewrite <- app_assoc.
    + simplify_eq. done.
Qed.

(** A resumed segment calls nothing and leaves the draft alone. *)
Lemma resume_frame (t : Task) (d : Delivery) (effects : list Effect)
    (outcome : Outcome) :
  resume t d = Some (effects, outcome) →
  callsOf effects = [] ∧ ∀ draft, draftAfter effects draft = draft.
Proof.
  unfold resume.
  destruct t, d as [[[|first others]] | | chunk | | e]; simpl;
    intros H; by simplify_eq.
Qed.

(** The first segment does nothing when the guard of line 48 stops it;
    otherwise it calls the backend at most once and clears the draft. *)
Lemma handleSendMessage_frame (input : string) (isLoading : bool)
    (chatCurrent : option Chat) :
  let '(effects, _) := handleSendMessage input isLoading chatCurrent in
  if negb (truthy (trim input)) || isLoading
  then effects = []
  else (callsOf effects = [] ∨ ∃ r, callsOf effects = [r])
       ∧ ∀ draft, draftAfter effects draft = EmptyString.
Proof.
  unfold handleSendMessage, tryStart.
  destruct (negb (truthy (trim input)) || isLoading); [done |].
  destruct (truthy (extractPrompt input)); [| destruct chatCurrent]; simpl;
    eauto.
Qed.

End Effects.

(** ** Properties of the whole component *)

Section Component.
Import Js.

(** X1. The send button is disabled exactly when the handler would
    ignore the submission: with the button disabled a submit event
    changes nothing, with it enabled the event appends the user message
    made of the draft as typed and clears the draft. *)
Theorem send_button_agrees_with_guard (a : App) :
  wf a →
  (sendDisabled (screen a) = true → step a Submit = Ok a)
  ∧ (sendDisabled (screen a) = false →
     ∃ a' rest,
       step a Submit = Ok a'
       ∧ transcript a' =
           transcript a
           ++ {| text := input a; sender := user; imageUrl := None |} :: rest
       ∧ input a' = EmptyString).
Proof.
  intros Hwf. unfold screen. cbn [sendDisabled]. split; intros Hd.
  - apply step_Submit_blocked. apply orb_true_iff in Hd as [Hl | Hg]; [by right |].
    left. by apply negb_true_iff.
  - apply orb_false_iff in Hd as [Hl Hg]. apply negb_false_iff in Hg.
    destruct (isImageCommand (input a)) eqn:Hi.
    { destruct (step_Submit_image a Hwf Hl Hi) as (a' & Hs & _ & Hv).
      apply view_inv in Hv as (Htr & Hin & _). simpl in Htr, Hin.
      exists a', []. split_and!; [exact Hs | exact Htr | exact Hin]. }
    destruct (chat a) as [session|] eqn:Hchat.
    + destruct (step_Submit_chat a session Hwf Hl Hchat Hg Hi)
        as (a' & Hs & _ & Hv).
      apply view_inv in Hv as (Htr & Hin & _). simpl in Htr, Hin.
      exists a', []. split_and!; [exact Hs | exact Htr | exact Hin].
    + destruct (step_Submit_uninitialised a Hwf Hl Hchat Hg Hi)
        as (a' & Hs & _ & Hv).
      apply view_inv in Hv as (Htr & Hin & _). simpl in Htr, Hin.
      exists a', [errorMessage]. split_and!; [exact Hs | exact Htr | exact Hin].
Qed.

Lemma send_button_agrees_with_guard_witness :
  (sendDisabled (screen (asked "   ")) = true
   ∧ step (asked "   ") Submit = Ok (asked "   "))
  ∧ (sendDisabled (screen (asked " hi ")) = false
     ∧ ∃ a' rest,
         step (asked " hi ") Submit = Ok a'
         ∧ transcript a' =
             transcript (asked " hi ")
             ++ {| text := " hi "; sender := user; imageUrl := None |} :: rest
         ∧ input a' = EmptyString).
Proof.
  split.
  - split; [reflexivity |].
    apply (proj1 (send_button_agrees_with_guard (asked "   ")
                    (proj1 consistent_initial))).
    reflexivity.
  - split; [reflexivity |].
    apply (proj2 (send_button_agrees_with_guard (asked " hi ")
                    (proj1 consistent_initial))).
    reflexivity.
Defined.

(** X2. Whatever happens, the greeting stays the first message of the
    transcript, as it was written. *)
Theorem greeting_stays_first (evs : list Event) :
  match run initial evs with
  | Ok a =>
      ∃ rest,
        transcript a =
          {| text := "Hello! I am Kohli AI, your smart and friendly assistant for everything related to industrial spindle technology. How can I assist you today?";
             sender := ai; imageUrl := None |} :: rest
  | Uncaught => False
  | Disabled => True
  end.
Proof.
  pose proof (sound_run evs initial sound_initial) as H.
  destruct (run initial evs) as [a | |]; [| done..].
  apply H.
Qed.

Lemma admissible_spec (m : Message) :
  admissible m = true →
  match sender m with
  | user => trim (text m) ≠ EmptyString ∧ imageUrl m = None
  | ai =>
      ∀ url, imageUrl m = Some url →
             (∃ bytes, url = "data:image/png;base64," +:+ bytes)
             ∧ text m ≠ EmptyString
  end.
Proof.
  unfold admissible. destruct (sender m), (imageUrl m) as [url|]; try done.
  - intros H. split; [| done]. by apply truthy_true.
  - intros H url' [= <-]. apply andb_true_iff in H as [Hu Ht].
    split; [by apply startsWith_true | by apply truthy_true].
Qed.

(** X3. In every transcript the component can reach, a user message is
    never blank and never carries an image, and an image is always a
    PNG data URI on an assistant message that has a text. *)
Theorem transcript_messages_well_formed (evs : list Event) :
  match run initial evs with
  | Ok a =>
      Forall
        (λ m,
           match sender m with
           | user => trim (text m) ≠ EmptyString ∧ imageUrl m = None
           | ai =>
               ∀ url, imageUrl m = Some url →
                      (∃ bytes, url = "data:image/png;base64," +:+ bytes)
                      ∧ text m ≠ EmptyString
           end)
        (transcript a)
  | Uncaught => False
  | Disabled => True
  end.
Proof.
  pose proof (sound_run evs initial sound_initial) as H.
  destruct (run initial evs) as [a | |]; [| done..].
  destruct H as (_ & _ & Hadm & _). simpl in Hadm.
  eapply Forall_impl; [exact Hadm |]. apply admissible_spec.
Qed.

End Component.

Section History.
Import Js.
Local Open Scope nat_scope.

Lemma keepsHistory_Transition (a : App) (ev : Event) (v : View) :
  soundView (view a) → Transition a ev v →
  keepsHistory (transcript a) (vTranscript v).
Proof.
  intros (_ & _ & Hstr & _) Ht.
  destruct Ht as [ | value | Hblocked | Hidle Hi | session Hidle Hc Hgd Hi
                 | Hidle Hc Hgd Hi | t d e Hb Ht
                 | prompt first others Hb | Hb
                 | fullResponse chunk ms m Hb Htr | fullResponse Hb ];
    simpl.
  1-3, 11: left; exists []; by rewrite app_nil_r.
  1-6: left; by eexists.
  destruct (Hstr fullResponse (proj2 Hb)) as (ms0 & _ & Htr0).
  simpl in Htr0. rewrite Htr0 in Htr. apply app_inj_tail in Htr as [-> <-].
  right. exists ms, (placeholder fullResponse), (chunkText chunk).
  by rewrite Htr0.
Qed.

(** X4. No event removes or reorders a message.  An event either
    appends to the transcript or, while an answer streams, lengthens
    the text of the last message, which is then the assistant's; the
    text already shown stays as its beginning. *)
Theorem history_is_kept (evs : list Event) (ev : Event) :
  match run initial evs with
  | Ok a =>
      match step a ev with
      | Ok a' =>
          (∃ suffix, transcript a' = transcript a ++ suffix)
          ∨ (∃ ms m more,
               transcript a = ms ++ [m] ∧ sender m = ai
               ∧ transcript a' =
                   ms ++ [ {| text := text m +:+ more; sender := sender m;
                              imageUrl := imageUrl m |} ])
      | Uncaught => False
      | Disabled => True
      end
  | Uncaught => False
  | Disabled => True
  end.
Proof.
  pose proof (sound_run evs initial sound_initial) as H.
  destruct (run initial evs) as [a | |]; [| done..].
  pose proof (sound_step a ev H) as Hs.
  destruct (step a ev) as [a' | |]; [| done..].
  destruct Hs as [_ Ht]. destruct H as [_ Hv].
  exact (keepsHistory_Transition a ev (view a') Hv Ht).
Qed.

Lemma prefix_snoc_shorter {A} (l ms : list A) (m : A) :
  l `prefix_of` ms ++ [m] → length l ≤ length ms → l `prefix_of` ms.
Proof.
  intros [k Hk] Hlen. destruct k as [|x k _] using rev_ind.
  - rewrite app_nil_r in Hk. subst l. rewrite length_app in Hlen.
    simpl in Hlen. lia.
  - rewrite app_assoc in Hk. apply app_inj_tail in Hk as [-> _].
    by exists k.
Qed.

(** All but the last message of [old] are in [new], in place. *)
Lemma keepsHistory_settled (seen old new : list Message) :
  seen `prefix_of` old → length seen ≤ length old - 1 →
  keepsHistory old new →
  seen `prefix_of` new ∧ length old ≤ length new.
Proof.
  intros Hpre Hlen [[suffix ->] | (ms & m & more & -> & _ & ->)].
  - split; [by apply prefix_app_r | rewrite length_app; lia].
  - rewrite length_app in Hlen. simpl in Hlen.
    split; [| by rewrite !length_app].
    apply prefix_app_r. apply (prefix_snoc_shorter _ _ m); [done | lia].
Qed.

Lemma settled_run (evs : list Event) (a : App) (seen : list Message) :
  sound a → seen `prefix_of` transcript a →
  length seen ≤ length (transcript a) - 1 →
  match run a evs with
  | Ok a' =>
      seen `prefix_of` transcript a'
      ∧ length (transcript a) ≤ length (transcript a')
  | Uncaught => False
  | Disabled => True
  end.
Proof.
  revert a. induction evs as [|ev evs IH]; intros a Hs Hpre Hlen; cbn [run].
  - done.
  - pose proof (sound_step a ev Hs) as Hstep.
    destruct (step a ev) as [a1 | |]; [| done..].
    destruct Hstep as [Hs1 Ht]. destruct Hs as [_ Hv].
    pose proof (keepsHistory_Transition a ev (view a1) Hv Ht) as Hk.
    destruct (keepsHistory_settled _ _ _ Hpre Hlen Hk) as [Hpre1 Hlen1].
    simpl in Hpre1, Hlen1.
    assert (length seen ≤ length (transcript a1) - 1) as Hlen2 by lia.
    pose proof (IH a1 Hs1 Hpre1 Hlen2) as Hrun.
    destruct (run a1 evs) as [a2 | |]; [| done..].
    split; [apply Hrun | lia].
Qed.

(** X5. Once a message is not the last one of the transcript it is
    final: in every later state the transcript begins with the same
    messages, unchanged, and it never gets shorter. *)
Theorem settled_messages_are_final (evs later : list Event) :
  match run initial evs with
  | Ok a =>
      match run a later with
      | Ok a' =>
          take (length (transcript a) - 1) (transcript a)
            `prefix_of` transcript a'
          ∧ length (transcript a) ≤ length (transcript a')
      | Uncaught => False
      | Disabled => True
      end
  | Uncaught => False
  | Disabled => True
  end.
Proof.
  pose proof (sound_run evs initial sound_initial) as H.
  destruct (run initial evs) as [a | |]; [| done..].
  apply settled_run; [done | apply prefix_take |].
  rewrite length_take. lia.
Qed.

End History.

Section Session.
Import Js.

(** X6. The component talks to one session: at any time the session
    is missing or is the one line 31 creates, and every chat request
    ever made went to that one. *)
Theorem one_session (evs : list Event) :
  match run initial evs with
  | Ok a =>
      (chat a = None ∨ chat a = Some chatConfig)
      ∧ ∀ session msg,
          SendMessageStream session msg ∈ requests a →
          session = chatConfig
          ∧ chatModel session = "gemini-2.5-flash"
  | Uncaught => False
  | Disabled => True
  end.
Proof.
  pose proof (sound_run evs initial sound_initial) as H.
  destruct (run initial evs) as [a | |]; [| done..].
  destruct H as (_ & _ & _ & _ & Hchat & Hreq & _). simpl in Hchat, Hreq.
  split; [done |]. intros session msg Hin.
  rewrite Forall_forall in Hreq.
  by rewrite (Hreq _ Hin session eq_refl).
Qed.

Lemma step_chat (a : App) (ev : Event) (session : Chat) :
  chat a = Some session →
  match step a ev with
  | Ok a' => chat a' = Some session
  | Uncaught | Disabled => True
  end.
Proof.
  intros Hc. destruct ev as [| value | | i d]; simpl.
  - by rewrite Hc.
  - done.
  - destruct (handleSendMessage _ _ _) as [effects outcome].
    destruct (applyEffects effects a) as [a'|] eqn:He; [| done].
    apply applyEffects_frame in He as (Hc' & _).
    destruct outcome; simpl; congruence.
  - destruct (pending a !! i) as [t|]; [| done].
    destruct (resume t d) as [[effects outcome]|]; [| done].
    destruct (applyEffects effects a) as [a'|] eqn:He; [| done].
    apply applyEffects_frame in He as (Hc' & _). simpl. congruence.
Qed.

(** X7. A session, once there, is never replaced or dropped: mounting
    again, typing, submitting and the backend's answers all leave it. *)
Theorem session_never_replaced (evs : list Event) (a : App)
    (session : Chat) :
  chat a = Some session →
  match run a evs with
  | Ok a' => chat a' = Some session
  | Uncaught | Disabled => True
  end.
Proof.
  revert a. induction evs as [|ev evs IH]; intros a Hc; cbn [run]; [done |].
  pose proof (step_chat a ev session Hc) as Hs.
  destruct (step a ev) as [a1 | |]; [by apply IH | done | done].
Qed.

Lemma session_never_replaced_witness :
  match
    run (asked "hi")
      [Mount; Submit; Mount; Settle 0 (Rejected (mkError "offline")); Mount]
  with
  | Ok a' => chat a' = Some chatConfig
  | Uncaught | Disabled => True
  end.
Proof.
  apply (session_never_replaced
           [Mount; Submit; Mount; Settle 0 (Rejected (mkError "offline"));
            Mount]
           (asked "hi") chatConfig).
  reflexivity.
Defined.

(** X8. Only a submission calls the backend, and at most once: every
    other event, the backend's answers and failures among them, leaves
    the list of requests as it is, so nothing is ever retried. *)
Theorem requests_only_on_submit (a : App) (ev : Event) :
  match step a ev with
  | Ok a' =>
      requests a' = requests a
      ∨ (ev = Submit ∧ ∃ r, requests a' = requests a ++ [r])
  | Uncaught | Disabled => True
  end.
Proof.
  destruct ev as [| value | | i d]; simpl.
  - left. by destruct (chat a).
  - by left.
  - pose proof (handleSendMessage_frame (input a) (isLoading a) (chat a)) as Hf.
    destruct (handleSendMessage _ _ _) as [effects outcome].
    destruct (applyEffects effects a) as [a'|] eqn:He; [| done].
    apply applyEffects_frame in He as (_ & _ & Hr & _).
    assert (requests a' = requests a
            ∨ ∃ r, requests a' = requests a ++ [r]) as Hcases.
    { destruct (negb _ || _).
      - subst effects. left. by rewrite Hr, app_nil_r.
      - destruct Hf as [[Hnone | [r Hone]] _].
        + left. by rewrite Hr, Hnone, app_nil_r.
        + right. exists r. by rewrite Hr, Hone. }
    destruct outcome; simpl; destruct Hcases; eauto.
  - destruct (pending a !! i) as [t|]; [| done].
    destruct (resume t d) as [[effects outcome]|] eqn:Hres; [| done].
    destruct (applyEffects effects a) as [a'|] eqn:He; [| done].
    apply applyEffects_frame in He as (_ & _ & Hr & _).
    apply resume_frame in Hres as [Hnone _].
    left. simpl. by rewrite Hr, Hnone, app_nil_r.
Qed.

(** X9. The draft changes in two ways only: typing sets it, and a
    submission the send button allows clears it.  Mounting, a
    submission the button forbids and whatever the backend delivers
    leave it as typed. *)
Theorem draft_changes (a : App) (ev : Event) :
  match step a ev with
  | Ok a' =>
      input a' =
        match ev with
        | Change value => value
        | Submit =>
            if sendDisabled (screen a) then input a else EmptyString
        | Mount | Settle _ _ => input a
        end
  | Uncaught | Disabled => True
  end.
Proof.
  destruct ev as [| value | | i d]; simpl.
  - by destruct (chat a).
  - done.
  - pose proof (handleSendMessage_frame (input a) (isLoading a) (chat a)) as Hf.
    destruct (handleSendMessage _ _ _) as [effects outcome].
    destruct (applyEffects effects a) as [a'|] eqn:He; [| done].
    apply applyEffects_frame in He as (_ & _ & _ & Hi).
    rewrite (orb_comm (isLoading a)).
    assert (input a' = if negb (truthy (trim (input a))) || isLoading a
                       then input a else EmptyString) as Hcases.
    { destruct (negb _ || _).
      - by subst effects.
      - destruct Hf as [_ Hd]. by rewrite Hi, Hd. }
    by destruct outcome.
  - destruct (pending a !! i) as [t|]; [| done].
    destruct (resume t d) as [[effects outcome]|] eqn:Hres; [| done].
    destruct (applyEffects effects a) as [a'|] eqn:He; [| done].
    apply applyEffects_frame in He as (_ & _ & _ & Hi).
    apply resume_frame in Hres as [_ Hd]. simpl. by rewrite Hi, Hd.
Qed.

End Session.

Section Accounting.
Import Js.
Local Open Scope nat_scope.

Lemma mounted_Transition (a : App) (ev : Event) (v : View) :
  soundView (view a) → chat a = Some chatConfig →
  length (requests a)
  = length (filter (λ m, isUser m = true) (transcript a)) →
  Transition a ev v →
  vChat v = Some chatConfig
  ∧ length (vRequests v)
    = length (filter (λ m, isUser m = true) (vTranscript v)).
Proof.
  intros (_ & _ & Hstr & _) Hc Hcnt Ht.
  destruct Ht as [ | value | Hblocked | Hidle Hi | session Hidle Hc' Hgd Hi
                 | Hidle Hc' Hgd Hi | t d e Hb Ht
                 | prompt first others Hb | Hb
                 | fullResponse chunk ms m Hb Htr | fullResponse Hb ];
    simpl; rewrite ?Hc; try done.
  - rewrite users_app, length_app. simpl. by rewrite Hcnt.
  - rewrite users_app, length_app. simpl. by rewrite Hcnt.
  - congruence.
  - rewrite users_app. simpl. by rewrite Hcnt, Nat.add_0_r.
  - rewrite users_app. simpl. by rewrite Hcnt, Nat.add_0_r.
  - rewrite users_app. simpl. by rewrite Hcnt, Nat.add_0_r.
  - destruct (Hstr fullResponse (proj2 Hb)) as (ms0 & _ & Htr0).
    simpl in Htr0. rewrite Htr0 in Htr. apply app_inj_tail in Htr as [-> <-].
    rewrite Htr0, users_app in Hcnt. rewrite users_app. simpl in *.
    by rewrite Hcnt.
Qed.

Lemma mounted_run (evs : list Event) (a : App) :
  sound a → chat a = Some chatConfig →
  length (requests a)
  = length (filter (λ m, isUser m = true) (transcript a)) →
  match run a evs with
  | Ok a' =>
      length (requests a')
      = length (filter (λ m, isUser m = true) (transcript a'))
  | Uncaught => False
  | Disabled => True
  end.
Proof.
  revert a. induction evs as [|ev evs IH]; intros a Hs Hc Hcnt; cbn [run].
  - done.
  - pose proof (sound_step a ev Hs) as Hstep.
    destruct (step a ev) as [a1 | |]; [| done..].
    destruct Hstep as [Hs1 Ht].
    destruct (mounted_Transition a ev (view a1) (proj2 Hs) Hc Hcnt Ht)
      as [Hc1 Hcnt1].
    by apply IH.
Qed.

(** X10. Once the component is mounted, every user message in the
    transcript stands for exactly one call to the backend and every
    call for one user message: there are as many requests as user
    messages, whatever the backend answered. *)
Theorem one_request_per_user_message (evs : list Event) :
  match run initial (Mount :: evs) with
  | Ok a =>
      length (requests a)
      = length (filter (λ m, isUser m = true) (transcript a))
  | Uncaught => False
  | Disabled => True
  end.
Proof.
  change (run initial (Mount :: evs))
    with (run (setChat (Some chatConfig) initial) evs).
  apply mounted_run; [| done..].
  pose proof (sound_step initial Mount sound_initial) as H. apply H.
Qed.

End Accounting.

Section Page.
Import Js.

Lemma truthy_of_trim (s : string) :
  truthy (trim s) = true → truthy s = true.
Proof. rewrite truthy_trim. by destruct s. Qed.

(** What the page shows of an admissible message. *)
Lemma renderMessage_admissible (index : nat) (m : Message) :
  admissible m = true →
  (signature (renderMessage index m) = false →
   paragraph (renderMessage index m) = Some (text m)
   ∧ text m ≠ EmptyString
   ∧ picture (renderMessage index m) = None)
  ∧ (∀ src alt,
       picture (renderMessage index m) = Some (src, alt) →
       signature (renderMessage index m) = true
       ∧ paragraph (renderMessage index m) = Some alt
       ∧ ∃ bytes, src = "data:image/png;base64," +:+ bytes).
Proof.
  unfold admissible, renderMessage. simpl.
  destruct (sender m), (imageUrl m) as [url|]; try done.
  - intros H. pose proof (truthy_of_trim _ H) as Ht. rewrite Ht.
    split; [| done]. intros _. split_and!; [done | | done].
    by apply truthy_true.
  - intros H. apply andb_true_iff in H as [Hu Ht]. rewrite Ht.
    apply startsWith_true in Hu as [bytes ->].
    split; [done |]. intros src alt Hp. simpl in Hp. simplify_eq.
    split_and!; [done.. |]. by exists bytes.
Qed.

(** X11. On every page the component can show, there is one block per
    message; a user's block always shows its text and never a picture;
    a picture only comes in an assistant's block, beside its text,
    with that text as [alt] and a PNG data URI as [src]. *)
Theorem page_blocks_well_formed (evs : list Event) :
  match run initial evs with
  | Ok a =>
      length (blocks (screen a)) = length (transcript a)
      ∧ Forall
          (λ b,
             (signature b = false →
              (∃ t, paragraph b = Some t ∧ t ≠ EmptyString)
              ∧ picture b = None)
             ∧ (∀ src alt,
                  picture b = Some (src, alt) →
                  signature b = true ∧ paragraph b = Some alt
                  ∧ ∃ bytes, src = "data:image/png;base64," +:+ bytes))
          (blocks (screen a))
  | Uncaught => False
  | Disabled => True
  end.
Proof.
  pose proof (sound_run evs initial sound_initial) as H.
  destruct (run initial evs) as [a | |]; [| done..].
  destruct H as (_ & _ & Hadm & _). simpl in Hadm.
  unfold screen. cbn [blocks]. split; [apply length_imap |].
  apply Forall_lookup. intros i b Hb.
  rewrite list_lookup_imap in Hb.
  destruct (transcript a !! i) as [m|] eqn:Hm; [| done].
  simpl in Hb. simplify_eq.
  rewrite Forall_lookup in Hadm. specialize (Hadm i m Hm).
  destruct (renderMessage_admissible i m Hadm) as [Huser Hpic].
  split; [| done]. intros Hsig.
  destruct (Huser Hsig) as (Hp & Ht & Hn). eauto.
Qed.

End Page.

Section InFlight.
Import Js.

Lemma setInput_same (a : App) : setInput (input a) a = a.
Proof. by destruct a. Qed.

Lemma step_user_while_loading (a : App) (session : Chat) (ev : Event) :
  isLoading a = true → chat a = Some session → userEvent ev = true →
  ∃ draft, step a ev = Ok (setInput draft a).
Proof.
  intros Hl Hc Hu. destruct ev as [| value | | i d]; [| | | done].
  - exists (input a). simpl. by rewrite Hc, setInput_same.
  - by exists value.
  - exists (input a). rewrite setInput_same. apply step_Submit_blocked. auto.
Qed.

Lemma run_user_while_loading (noise : list Event) (a : App) (session : Chat) :
  isLoading a = true → chat a = Some session →
  Forall (λ ev, userEvent ev = true) noise →
  ∃ draft, run a noise = Ok (setInput draft a).
Proof.
  intros Hl Hc Hn. revert a Hl Hc.
  induction Hn as [|ev noise Hev _ IH]; intros a Hl Hc; cbn [run].
  - exists (input a). by rewrite setInput_same.
  - destruct (step_user_while_loading a session ev Hl Hc Hev) as [draft ->].
    destruct (IH (setInput draft a) Hl Hc) as [draft' ->].
    by exists draft'.
Qed.

(** What a delivery does is the same whatever the draft is. *)
Lemma step_Settle_setInput (a : App) (draft : string) (i : nat)
    (d : Delivery) :
  step (setInput draft a) (Settle i d)
  = match step a (Settle i d) with
    | Ok a' => Ok (setInput draft a')
    | Uncaught => Uncaught
    | Disabled => Disabled
    end.
Proof.
  unfold step. cbn [pending setInput].
  destruct (pending a !! i) as [t|]; [| done].
  destruct t as [prompt | | fullResponse],
    d as [[[|first others]] | | chunk | | e]; try done.
  unfold resume, tryResume, catchFinally, applyEffects, applyEffect,
    applyUpdater. cbn [fmap option_fmap option_map messages store setInput].
  destruct (messages a !! _) as [r|]; [| done].
  by destruct (store a !! r).
Qed.

(** X12. While the loading flag is set, nothing the user does can
    disturb the submission in flight: after any mounting, typing and
    submitting, the next delivery of the backend leaves the state it
    would have left without them, except for the draft. *)
Theorem user_cannot_disturb_submission (a : App) (session : Chat)
    (noise : list Event) (i : nat) (d : Delivery) :
  isLoading a = true → chat a = Some session →
  Forall (λ ev, userEvent ev = true) noise →
  ∃ draft,
    run a (noise ++ [Settle i d])
    = match step a (Settle i d) with
      | Ok a' => Ok (setInput draft a')
      | Uncaught => Uncaught
      | Disabled => Disabled
      end.
Proof.
  intros Hl Hc Hn.
  destruct (run_user_while_loading noise a session Hl Hc Hn) as [draft Hrun].
  exists draft. rewrite run_app, Hrun. cbn [run].
  rewrite step_Settle_setInput. by destruct (step a (Settle i d)).
Qed.

Lemma user_cannot_disturb_submission_witness :
  ∃ draft,
    run midStream
      ([Change "more"; Submit; Mount; Change "more?"]
       ++ [Settle 0 (NextChunk (mkChunk "tial"))])
    = match step midStream (Settle 0 (NextChunk (mkChunk "tial"))) with
      | Ok a' => Ok (setInput draft a')
      | Uncaught => Uncaught
      | Disabled => Disabled
      end.
Proof.
  apply (user_cannot_disturb_submission midStream chatConfig
           [Change "more"; Submit; Mount; Change "more?"] 0
           (NextChunk (mkChunk "tial"))).
  - reflexivity.
  - reflexivity.
  - repeat constructor.
Defined.

Lemma answered_Transition (a : App) (ev : Event) (v : View) :
  soundView (view a) → Transition a ev v →
  (isLoading a = false → ∃ ms m, transcript a = ms ++ [m] ∧ sender m = ai) →
  vIsLoading v = false →
  ∃ ms m, vTranscript v = ms ++ [m] ∧ sender m = ai.
Proof.
  intros (_ & _ & Hstr & _) Ht Hans.
  destruct Ht as [ | value | Hblocked | Hidle Hi | session Hidle Hc Hgd Hi
                 | Hidle Hc Hgd Hi | t d e Hb Ht
                 | prompt first others Hb | Hb
                 | fullResponse chunk ms m Hb Htr | fullResponse Hb ];
    simpl; try done.
  - intros _. exists (transcript a ++ [fromUser (input a)]), errorMessage.
    by rewrite <- app_assoc.
  - intros _. by exists (transcript a), errorMessage.
  - intros _. by eexists (transcript a), _.
  - intros _. destruct (Hstr fullResponse (proj2 Hb)) as (ms0 & _ & Htr0).
    by exists ms0, (placeholder fullResponse).
Qed.

(** X13. No user message is left without a reply: whenever no
    submission is in flight, the transcript ends with a message of the
    assistant (the greeting, an answer, an image or the apology). *)
Theorem idle_transcript_ends_with_assistant (evs : list Event) :
  match run initial evs with
  | Ok a =>
      isLoading a = false →
      ∃ ms m, transcript a = ms ++ [m] ∧ sender m = ai
  | Uncaught => False
  | Disabled => True
  end.
Proof.
  assert (∀ a, sound a →
               (isLoading a = false →
                ∃ ms m, transcript a = ms ++ [m] ∧ sender m = ai) →
               match run a evs with
               | Ok a' =>
                   isLoading a' = false →
                   ∃ ms m, transcript a' = ms ++ [m] ∧ sender m = ai
               | Uncaught => False
               | Disabled => True
               end) as H.
  { induction evs as [|ev evs IH]; intros a Hs Hans; cbn [run]; [done |].
    pose proof (sound_step a ev Hs) as Hstep.
    destruct (step a ev) as [a1 | |]; [| done..].
    destruct Hstep as [Hs1 Ht]. apply IH; [done |].
    exact (answered_Transition a ev (view a1) (proj2 Hs) Ht Hans). }
  apply H; [apply sound_initial |].
  intros _. by exists [], greetingMessage.
Qed.

End InFlight.
